(** * caddy-s3-proxy: a shallow embedding of [s3proxy.go]

    The handler maps a GET request to an object key of an S3 bucket, forwards
    the request's validators to the storage client and rebuilds a response
    from the object it gets back.  This file embeds

    - the parts of Go's standard library the handler computes with
      ([path.Clean], [path.Join], [strings.HasSuffix], [crypto/sha1],
      [encoding/hex]),
    - the handler itself ([joinPath], [convertSha1], [setStrHeader],
      [setTimeHeader], [getS3Object], [writeResponseFromGetObject],
      [GetHandler], [ServeHTTP]),

    and proves properties of the key it builds, of the storage request it
    sends and of what it writes to the response. *)

From Stdlib Require Import ZArith Ascii String List Lia Bool.
From stdpp Require Import base decidable option list gmap strings.

Local Open Scope string_scope.
Local Open Scope list_scope.
Local Open Scope nat_scope.

(* [length] is the length of a list throughout; of a string it is written
   [String.length]. *)
Local Abbreviation length := Datatypes.length.

(** ** Go strings

    A Go [string] is a sequence of bytes; it is a [list ascii] here and a
    literal is written as a Rocq string. *)

Abbreviation gostring := (list ascii).

Definition str (s : string) : gostring := list_ascii_of_string s.
Coercion str : string >-> list.

Definition slash : ascii := "/"%char.
Definition dot : ascii := "."%char.

(** [a == b] on Go strings. *)
Definition streq (a b : gostring) : bool := bool_decide (a = b).

(** ** Panics

    A Go function that may panic returns [Panicked]; [Returned] carries the
    value of a normal return. *)

Inductive outcome (A : Type) : Type :=
| Returned (a : A)
| Panicked (reason : string).
Arguments Returned {A} a.
Arguments Panicked {A} reason.

(** ** Package [path] *)

Module path.

(** The output buffer of [Clean] ([lazybuf]) holds the [w] bytes written so
    far.  It is kept here with the byte written last in front, so that
    [out.w] is its length, [out.append] is a cons and [out.string()] its
    reversal. *)

(** [out.w--; for out.w > dotdot && out.index(out.w) != '/' { out.w-- }] *)
Fixpoint backtrack (dotdot : nat) (out : list ascii) : list ascii :=
  match out with
  | [] => []
  | c :: out' =>
      if (dotdot <? length out') && negb (Ascii.eqb c slash)
      then backtrack dotdot out'
      else out'
  end.

(** [for ; r < n && path[r] != '/'; r++ { out.append(path[r]) }]:
    returns what is left of the path and the buffer. *)
Fixpoint copy_element (rest : gostring) (out : list ascii) : gostring * list ascii :=
  match rest with
  | [] => ([], out)
  | c :: rest' =>
      if Ascii.eqb c slash then (rest, out) else copy_element rest' (c :: out)
  end.

(** [r+k == n || path[r+k] == '/'], for the path from [r+k] on. *)
Definition ends_element (rest : gostring) : bool :=
  match rest with
  | [] => true
  | c :: _ => Ascii.eqb c slash
  end.

(** The main loop of [Clean], [for r < n { switch ... }], on the path from
    [r] on.  Every turn reads at least one byte, so [length rest] turns are
    enough ([clean_loop_fuel]). *)
Fixpoint clean_loop (fuel : nat) (rooted : bool) (rest : gostring)
    (out : list ascii) (dotdot : nat) : list ascii :=
  match fuel with
  | O => out
  | S fuel' =>
      match rest with
      | [] => out
      | c :: r1 =>
          if Ascii.eqb c slash then
            (* empty path element *)
            clean_loop fuel' rooted r1 out dotdot
          else if Ascii.eqb c dot && ends_element r1 then
            (* . element *)
            clean_loop fuel' rooted r1 out dotdot
          else if Ascii.eqb c dot &&
                  match r1 with
                  | c' :: r2 => Ascii.eqb c' dot && ends_element r2
                  | [] => false
                  end then
            (* .. element: remove to last / *)
            let r2 := tail r1 in
            if dotdot <? length out then
              (* can backtrack *)
              clean_loop fuel' rooted r2 (backtrack dotdot out) dotdot
            else if negb rooted then
              (* cannot backtrack, but not rooted, so append .. element *)
              let out1 := if 0 <? length out then slash :: out else out in
              let out2 := dot :: dot :: out1 in
              clean_loop fuel' rooted r2 out2 (length out2)
            else
              clean_loop fuel' rooted r2 out dotdot
          else
            (* real path element: add slash if needed, copy element *)
            let out1 :=
              if (rooted && negb (length out =? 1)) || (negb rooted && negb (length out =? 0))
              then slash :: out else out in
            let '(rest', out2) := copy_element rest out1 in
            clean_loop fuel' rooted rest' out2 dotdot
      end
  end.

(** The end of [Clean]: [if out.w == 0 { return "." }; return out.string()] *)
Definition out_string (out : list ascii) : gostring :=
  match out with
  | [] => "."
  | _ => rev out
  end.

Definition Clean (path : gostring) : gostring :=
  match path with
  | [] => "."
  | c :: tl =>
      let rooted := Ascii.eqb c slash in
      let out :=
        if rooted
        then clean_loop (length path) true tl [slash] 1
        else clean_loop (length path) false path [] 0 in
      out_string out
  end.

(** Some of the cases of [cleantests] in [path_test.go], and a few more. *)
Definition cleantests : list (string * string) :=
  [("", "."); ("abc", "abc"); ("abc/def", "abc/def"); ("a/b/c", "a/b/c"); (".", ".");
   ("..", ".."); ("../..", "../.."); ("../../abc", "../../abc"); ("/abc", "/abc"); ("/", "/");
   ("abc/", "abc"); ("abc/def/", "abc/def"); ("a/b/c/", "a/b/c"); ("./", "."); ("../", "..");
   ("../../", "../.."); ("/abc/", "/abc");
   ("abc//def//ghi", "abc/def/ghi"); ("//abc", "/abc"); ("///abc", "/abc"); ("//abc//", "/abc");
   ("abc//", "abc");
   ("abc/./def", "abc/def"); ("/./abc/def", "/abc/def"); ("abc/.", "abc");
   ("abc/def/ghi/../jkl", "abc/def/jkl"); ("abc/def/../ghi/../jkl", "abc/jkl");
   ("abc/def/..", "abc"); ("abc/def/../..", "."); ("/abc/def/../..", "/");
   ("abc/def/../../..", ".."); ("/abc/def/../../..", "/");
   ("abc/def/../../../ghi/jkl/../../../mno", "../../mno");
   ("abc/./../def", "def"); ("abc//./../def", "def"); ("abc/../../././../def", "../../def");
   ("/../a", "/a"); ("...", "..."); ("a/.../b", "a/.../b"); (".a", ".a"); ("..a/..", ".")].

(** One turn of the second loop of [Join]. *)
Definition join_append (buf : gostring) (e : gostring) : gostring :=
  if (0 <? length buf) || negb (streq e "")
  then (if 0 <? length buf then buf ++ [slash] else buf) ++ e
  else buf.

Definition Join (elem : list gostring) : gostring :=
  let size := fold_left (fun n e => n + length e) elem 0 in
  if size =? 0 then ""
  else Clean (fold_left join_append elem []).

End path.

(** ** Package [strings] *)

Module strings.

(** [len(s) >= len(suffix) && s[len(s)-len(suffix):] == suffix] *)
Definition HasSuffix (s suffix : gostring) : bool :=
  (length suffix <=? length s) && streq (drop (length s - length suffix) s) suffix.

End strings.

(** ** Package [crypto/sha1]

    A [uint32] is a [Z] in [0, 2^32), a [uint64] a [Z] in [0, 2^64); sums
    wrap around. *)

Module sha1.

Local Open Scope Z_scope.

Definition uint32 (x : Z) : Z := x mod 2 ^ 32.
Definition uint64 (x : Z) : Z := x mod 2 ^ 64.

Definition add32 (x y : Z) : Z := uint32 (x + y).

(** [bits.RotateLeft32(x, k)] *)
Definition RotateLeft32 (x k : Z) : Z :=
  uint32 (Z.lor (Z.shiftl x k) (Z.shiftr x (32 - k))).

(** [^b] on a [uint32] *)
Definition not32 (b : Z) : Z := Z.lxor b 0xFFFFFFFF.

Definition chunk : nat := 64.
Definition Size : nat := 20.

Definition init0 : Z := 0x67452301.
Definition init1 : Z := 0xEFCDAB89.
Definition init2 : Z := 0x98BADCFE.
Definition init3 : Z := 0x10325476.
Definition init4 : Z := 0xC3D2E1F0.

Definition _K0 : Z := 0x5A827999.
Definition _K1 : Z := 0x6ED9EBA1.
Definition _K2 : Z := 0x8F1BBCDC.
Definition _K3 : Z := 0xCA62C1D6.

Definition byte_val (c : ascii) : Z := Z.of_N (N_of_ascii c).
Definition byte_of (x : Z) : ascii := ascii_of_N (Z.to_N (x mod 256)).

(** The five words [h[0..4]] of a digest, and of the registers [a..e]. *)
Definition words : Type := Z * Z * Z * Z * Z.

(** [w[i]] and [p[i]], within bounds wherever the code reads them. *)
Definition word_at (w : list Z) (i : nat) : Z := nth i w 0.
Definition byte_at (p : list ascii) (i : nat) : Z := byte_val (nth i p zero).

(** [w[i] = uint32(p[j])<<24 | uint32(p[j+1])<<16 | uint32(p[j+2])<<8 | uint32(p[j+3])]
    for [i] in [0, 16), [j = 4i]. *)
Definition load_words (p : list ascii) : list Z :=
  map (fun i =>
         let j := (i * 4)%nat in
         Z.lor (Z.lor (Z.lor (Z.shiftl (byte_at p j) 24) (Z.shiftl (byte_at p (j + 1)) 16))
                      (Z.shiftl (byte_at p (j + 2)) 8))
               (byte_at p (j + 3)))
      (seq 0 16).

(** Turn [i] of the eighty of [blockGeneric]; the four 20-iteration rounds
    differ only in [f] and in the constant, and from turn 16 on the schedule
    word is computed first. *)
Definition round (st : words * list Z) (i : nat) : words * list Z :=
  let '((a, b, c, d, e), w) := st in
  let w :=
    if (i <? 16)%nat then w
    else
      let tmp := Z.lxor (Z.lxor (Z.lxor (word_at w ((i - 3) mod 16)) (word_at w ((i - 8) mod 16)))
                                (word_at w ((i - 14) mod 16)))
                        (word_at w (i mod 16)) in
      <[(i mod 16)%nat := RotateLeft32 tmp 1]> w in
  let f :=
    if (i <? 20)%nat then Z.lor (Z.land b c) (Z.land (not32 b) d)
    else if (i <? 40)%nat then Z.lxor (Z.lxor b c) d
    else if (i <? 60)%nat then Z.lor (Z.land (Z.lor b c) d) (Z.land b c)
    else Z.lxor (Z.lxor b c) d in
  let k :=
    if (i <? 20)%nat then _K0
    else if (i <? 40)%nat then _K1
    else if (i <? 60)%nat then _K2
    else _K3 in
  let t := add32 (add32 (add32 (add32 (RotateLeft32 a 5) f) e) (word_at w (i mod 16))) k in
  ((t, a, RotateLeft32 b 30, c, d), w).

(** One 64-byte chunk. *)
Definition block1 (h : words) (p : list ascii) : words :=
  let '(h0, h1, h2, h3, h4) := h in
  let '((a, b, c, d, e), _) := fold_left round (seq 0 80) (h, load_words p) in
  (add32 h0 a, add32 h1 b, add32 h2 c, add32 h3 d, add32 h4 e).

(** [blockGeneric]: [for len(p) >= chunk { ...; p = p[chunk:] }], for the
    [n] whole chunks of [p]. *)
Fixpoint block_chunks (n : nat) (h : words) (p : list ascii) : words :=
  match n with
  | O => h
  | S n' => block_chunks n' (block1 h (take chunk p)) (drop chunk p)
  end.

Definition block (h : words) (p : list ascii) : words :=
  block_chunks (length p / chunk) h p.

(** The [digest]: [x] holds the [nx] bytes not yet hashed. *)
Record digest : Type := {
  h : words;
  x : list ascii;
  len : Z
}.

Definition New : digest :=
  {| h := (init0, init1, init2, init3, init4); x := []; len := 0 |}.

Definition Write (d : digest) (p : list ascii) : digest :=
  let len' := uint64 (len d + Z.of_nat (length p)) in
  (* if d.nx > 0 *)
  let '(h1, x1, p1) :=
    if (0 <? length (x d))%nat then
      let n := Nat.min (chunk - length (x d)) (length p) in
      let x' := x d ++ take n p in
      if (length x' =? chunk)%nat
      then (block (h d) x', [], drop n p)
      else (h d, x', drop n p)
    else (h d, x d, p) in
  (* if len(p) >= chunk *)
  let '(h2, p2) :=
    if (chunk <=? length p1)%nat then
      let n := (length p1 - length p1 mod chunk)%nat in
      (block h1 (take n p1), drop n p1)
    else (h1, p1) in
  (* if len(p) > 0 *)
  let x2 := if (0 <? length p2)%nat then p2 else x1 in
  {| h := h2; x := x2; len := len' |}.

(** [BePutUint64] and [BePutUint32] *)
Definition be_bytes (n : nat) (v : Z) : list ascii :=
  map (fun i => byte_of (Z.shiftr v (8 * Z.of_nat (n - 1 - i)))) (seq 0 n).

(** [checkSum]: pad to 56 bytes mod 64, append the length in bits, and
    read the five words out. *)
Definition checkSum (d : digest) : list ascii :=
  let t := if len d mod 64 <? 56 then 56 - len d mod 64 else 64 + 56 - len d mod 64 in
  let padlen := byte_of 0x80 :: repeat zero (Z.to_nat t - 1) ++ be_bytes 8 (uint64 (Z.shiftl (len d) 3)) in
  let '(h0, h1, h2, h3, h4) := h (Write d padlen) in
  be_bytes 4 h0 ++ be_bytes 4 h1 ++ be_bytes 4 h2 ++ be_bytes 4 h3 ++ be_bytes 4 h4.

(** [d.Sum(in)] appends the checksum to [in] and leaves [d] as it is. *)
Definition Sum (d : digest) (b : list ascii) : list ascii := b ++ checkSum d.

End sha1.

(** ** Package [encoding/hex] *)

Module hex.

Definition hextable : gostring := "0123456789abcdef".

(** [dst[j] = hextable[v>>4]; dst[j+1] = hextable[v&0x0f]] for every byte
    [v]; both indices are below 16. *)
Definition EncodeToString (src : list ascii) : gostring :=
  flat_map (fun v =>
              let n := N.to_nat (N_of_ascii v) in
              [nth (n / 16) hextable zero; nth (n mod 16) hextable zero])
           src.

End hex.

(** ** The key builder of [s3proxy.go] *)

Definition convertSha1 (input : gostring) : gostring :=
  let h := sha1.New in
  let h := sha1.Write h input in
  hex.EncodeToString (sha1.Sum h []).

(** [uriPath[len(uriPath)-1:]] panics on the empty string: the slice
    starts at index -1. *)
Definition joinPath (root uriPath : gostring) : outcome gostring :=
  match length uriPath with
  | O => Panicked "slice bounds out of range [-1:]"
  | S n =>
      let isDir := streq (drop n uriPath) "/" in
      let newPath := path.Join [root; uriPath] in
      if isDir && negb (streq newPath "/") then
        (* Join will strip the ending /
           add it back if it was there as it implies a dir view *)
        Returned (newPath ++ "/")
      else Returned newPath
  end.

Definition defaultIndex : gostring := "index.html".

(** The key [GetHandler] hands to [getS3Object]: its local [s3Key] after
    the two [if]s. *)
Definition s3Key (fullPath rawQuery : gostring) : gostring :=
  let s3Key := fullPath in
  let s3Key :=
    if strings.HasSuffix fullPath "/" then path.Join [s3Key; defaultIndex] else s3Key in
  let s3Key :=
    if 0 <? length rawQuery then path.Join [s3Key; str "/"; convertSha1 rawQuery] else s3Key in
  s3Key.

(** The key as section 4.1 of the specification words it: the digest of
    the query is appended first, and the default document only if the key
    still ends with a separator after that. *)
Definition s3Key_digest_first (fullPath rawQuery : gostring) : gostring :=
  let key := fullPath in
  let key := if 0 <? length rawQuery then path.Join [key; convertSha1 rawQuery] else key in
  let key := if strings.HasSuffix key "/" then path.Join [key; defaultIndex] else key in
  key.

(** ** Errors, times, and the storage client's types *)

Inductive error : Type :=
| awserr_Error (Code Message : gostring)   (* an error that is an [awserr.Error] *)
| errors_New (text : gostring).            (* any other error *)

(** [time.Time] is the struct of its three fields; [time.Time{}] has them
    all zero. *)
Record Time : Type := { wall : Z; ext : Z; loc : option gostring }.

Definition Time_zero : Time := {| wall := 0; ext := 0; loc := None |}.

(** [reflect.DeepEqual] on two [time.Time]. *)
Definition Time_DeepEqual (a b : Time) : bool :=
  (wall a =? wall b)%Z && (ext a =? ext b)%Z && bool_decide (loc a = loc b).

(** An [io.ReadCloser]: the bytes it delivers, and the error its last read
    ends with ([None] for [io.EOF]). *)
Record Reader : Type := { data : list ascii; read_err : option error }.

Module s3.

(** [*string], [*time.Time] and [*int64] fields are options: [None] is the
    nil pointer. *)
Record GetObjectInput : Type := {
  Bucket : option gostring;
  Key : option gostring;
  Range : option gostring;
  IfMatch : option gostring;
  IfNoneMatch : option gostring;
  IfModifiedSince : option Time;
  IfUnmodifiedSince : option Time
}.

Definition SetRange (oi : GetObjectInput) (v : gostring) : GetObjectInput :=
  {| Bucket := Bucket oi; Key := Key oi; Range := Some v; IfMatch := IfMatch oi;
     IfNoneMatch := IfNoneMatch oi; IfModifiedSince := IfModifiedSince oi;
     IfUnmodifiedSince := IfUnmodifiedSince oi |}.

Definition SetIfMatch (oi : GetObjectInput) (v : gostring) : GetObjectInput :=
  {| Bucket := Bucket oi; Key := Key oi; Range := Range oi; IfMatch := Some v;
     IfNoneMatch := IfNoneMatch oi; IfModifiedSince := IfModifiedSince oi;
     IfUnmodifiedSince := IfUnmodifiedSince oi |}.

Definition SetIfNoneMatch (oi : GetObjectInput) (v : gostring) : GetObjectInput :=
  {| Bucket := Bucket oi; Key := Key oi; Range := Range oi; IfMatch := IfMatch oi;
     IfNoneMatch := Some v; IfModifiedSince := IfModifiedSince oi;
     IfUnmodifiedSince := IfUnmodifiedSince oi |}.

Definition SetIfModifiedSince (oi : GetObjectInput) (v : Time) : GetObjectInput :=
  {| Bucket := Bucket oi; Key := Key oi; Range := Range oi; IfMatch := IfMatch oi;
     IfNoneMatch := IfNoneMatch oi; IfModifiedSince := Some v;
     IfUnmodifiedSince := IfUnmodifiedSince oi |}.

Definition SetIfUnmodifiedSince (oi : GetObjectInput) (v : Time) : GetObjectInput :=
  {| Bucket := Bucket oi; Key := Key oi; Range := Range oi; IfMatch := IfMatch oi;
     IfNoneMatch := IfNoneMatch oi; IfModifiedSince := IfModifiedSince oi;
     IfUnmodifiedSince := Some v |}.

(** The fields of [GetObjectOutput] the handler reads.  [Metadata] is a
    [map[string]*string]; it is held as the list of its entries in the
    order the [range] loop visits them, which Go leaves open. *)
Record GetObjectOutput : Type := {
  Body : option Reader;
  CacheControl : option gostring;
  ContentDisposition : option gostring;
  ContentEncoding : option gostring;
  ContentLanguage : option gostring;
  ContentLength : option Z;
  ContentRange : option gostring;
  ContentType : option gostring;
  ETag : option gostring;
  Expires : option gostring;
  LastModified : option Time;
  Metadata : list (gostring * option gostring)
}.

(** [&s3.GetObjectOutput{}] *)
Definition empty_output : GetObjectOutput :=
  {| Body := None; CacheControl := None; ContentDisposition := None;
     ContentEncoding := None; ContentLanguage := None; ContentLength := None;
     ContentRange := None; ContentType := None; ETag := None; Expires := None;
     LastModified := None; Metadata := [] |}.

(** The client's method [GetObject]: the output pointer and the error. *)
Definition Client : Type := GetObjectInput → option GetObjectOutput * option error.

End s3.

(** ** Package [net/http] *)

Module http.

Definition MethodGet : gostring := "GET".
Definition TimeFormat : gostring := "Mon, 02 Jan 2006 15:04:05 GMT".
Definition StatusOK : Z := 200.
Definition StatusNotModified : Z := 304.

(** [http.Header] is a [map[string][]string]. *)
Abbreviation Header := (gmap gostring (list gostring)).

(** An [http.ResponseWriter] that records what it is given: [Header()] is
    a live map; the first [WriteHeader] fixes the status code and the
    headers that go out with it, and a later one does nothing; [Write]
    writes the header with [StatusOK] first if none was written, and then
    appends to the body.  What a server adds of its own when it sends the
    response (a sniffed [Content-Type], [Date], the framing of the body) is
    not part of it. *)
Record ResponseWriter : Type := {
  header : Header;
  wroteHeader : option (Z * Header);
  body : list ascii
}.

Definition WriteHeader (w : ResponseWriter) (code : Z) : ResponseWriter :=
  match wroteHeader w with
  | Some _ => w
  | None => {| header := header w; wroteHeader := Some (code, header w); body := body w |}
  end.

Definition Write (w : ResponseWriter) (buf : list ascii) : ResponseWriter :=
  let w := WriteHeader w StatusOK in
  {| header := header w; wroteHeader := wroteHeader w; body := body w ++ buf |}.

Definition with_header (w : ResponseWriter) (h : Header) : ResponseWriter :=
  {| header := h; wroteHeader := wroteHeader w; body := body w |}.

(** An [*http.Request]: the fields the handler reads, and the replacer
    its context carries under [caddy.ReplacerCtxKey], if any.  The replacer
    is given as its [ReplaceAll] method. *)
Record Request : Type := {
  Method : gostring;
  URL_Path : gostring;
  URL_RawQuery : gostring;
  Header_ : Header;
  Replacer : option (gostring → gostring → gostring)
}.

End http.

(** [io.Copy(w, src)]: every chunk read is written to [w]; nothing is
    written when the source delivers no byte.  The recorder's [Write] never
    fails, so the error is the reader's. *)
Definition io_Copy (w : http.ResponseWriter) (src : Reader) : http.ResponseWriter * option error :=
  ((if 0 <? length (data src) then http.Write w (data src) else w), read_err src).

(** [caddyhttp.Handler]: the next handler gets the response writer and the
    request, and answers with what it made of the writer and its error. *)
Definition Handler : Type :=
  http.ResponseWriter → http.Request → http.ResponseWriter * option error.

(** The handler's configuration and its client. *)
Record S3Proxy : Type := {
  Root : gostring;
  Region : gostring;
  Bucket : gostring;
  Endpoint : gostring;
  S3UseAccelerate : bool;
  client : s3.Client
}.

(** ** What a request does

    The handler works on the response writer and calls two collaborators,
    the storage client and the next handler.  A [World] is the writer
    together with the calls made so far, oldest first; an [M A] is a Go
    function body that works on it and returns an [A], or panics. *)

Inductive event : Type :=
| CallGetObject (oi : s3.GetObjectInput)
| CallNext.

Record World : Type := { resp : http.ResponseWriter; trace : list event }.

Definition M (A : Type) : Type := World → outcome (A * World).

Global Instance M_ret : MRet M := λ A a σ, Returned (a, σ).

Global Instance M_bind : MBind M := λ A B k m σ,
  match m σ with
  | Returned (a, σ') => k a σ'
  | Panicked reason => Panicked reason
  end.

Definition panic {A : Type} (reason : string) : M A := λ _, Panicked reason.

Definition lift {A : Type} (o : outcome A) : M A := λ σ,
  match o with
  | Returned a => Returned (a, σ)
  | Panicked reason => Panicked reason
  end.

(** A method of the response writer. *)
Definition on_writer (f : http.ResponseWriter → http.ResponseWriter) : M unit := λ σ,
  Returned (tt, {| resp := f (resp σ); trace := trace σ |}).

Definition emit (e : event) : M unit := λ σ,
  Returned (tt, {| resp := resp σ; trace := trace σ ++ [e] |}).

(** [p.client.GetObject(oi)] *)
Definition call_GetObject (p : S3Proxy) (oi : s3.GetObjectInput)
  : M (option s3.GetObjectOutput * option error) :=
  _ ← emit (CallGetObject oi); mret (client p oi).

(** [io.Copy(w, src)] *)
Definition call_io_Copy (src : Reader) : M (option error) := λ σ,
  let '(w', err) := io_Copy (resp σ) src in
  Returned (err, {| resp := w'; trace := trace σ |}).

(** [next.ServeHTTP(w, r)] *)
Definition call_next (next : Handler) (r : http.Request) : M (option error) := λ σ,
  let '(w', err) := next (resp σ) r in
  Returned (err, {| resp := w'; trace := trace σ ++ [CallNext] |}).

(** ** The handler *)

Section handler.

(** The handler reaches three functions of the standard library through
    the calls below and only passes their results on; it is embedded over
    any such functions: [textproto.CanonicalMIMEHeaderKey], under which
    [http.Header] files its keys, [time.Parse], and
    [t.UTC().Format(layout)]. *)
Context (CanonicalMIMEHeaderKey : gostring → gostring).
Context (time_Parse : gostring → gostring → Time * option error).
Context (time_UTC_Format : Time → gostring → gostring).

(** [h.Get(key)], [h.Set(key, value)], [h.Del(key)] *)
Definition Header_Get (h : http.Header) (key : gostring) : gostring :=
  match h !! CanonicalMIMEHeaderKey key with
  | Some (v :: _) => v
  | _ => ""
  end.

Definition Header_Set (h : http.Header) (key value : gostring) : http.Header :=
  <[CanonicalMIMEHeaderKey key := [value]]> h.

Definition Header_Del (h : http.Header) (key : gostring) : http.Header :=
  delete (CanonicalMIMEHeaderKey key) h.

Definition setStrHeader (w : http.ResponseWriter) (key : gostring) (value : option gostring)
  : http.ResponseWriter :=
  match value with
  | Some v =>
      if 0 <? length v
      then http.with_header w (Header_Set (http.header w) key v)
      else w
  | None => w
  end.

Definition setTimeHeader (w : http.ResponseWriter) (key : gostring) (value : option Time)
  : http.ResponseWriter :=
  match value with
  | Some v =>
      if negb (Time_DeepEqual v Time_zero)
      then http.with_header w (Header_Set (http.header w) key (time_UTC_Format v http.TimeFormat))
      else w
  | None => w
  end.

(** [for key, value := range obj.Metadata { setStrHeader(w, key, value) }] *)
Definition setMetadataHeaders (w : http.ResponseWriter) (metadata : list (gostring * option gostring))
  : http.ResponseWriter :=
  fold_left (λ w kv, setStrHeader w (fst kv) (snd kv)) metadata w.

(** The storage request of [getS3Object]: bucket and key, and what the
    five [if]s on the request's headers add. *)
Definition getObjectInput (bucket key : gostring) (r : http.Request) : s3.GetObjectInput :=
  let oi :=
    {| s3.Bucket := Some bucket; s3.Key := Some key; s3.Range := None; s3.IfMatch := None;
       s3.IfNoneMatch := None; s3.IfModifiedSince := None; s3.IfUnmodifiedSince := None |} in
  let headers := http.Header_ r in
  let oi :=
    let rg := Header_Get headers "Range" in
    if negb (streq rg "") then s3.SetRange oi rg else oi in
  let oi :=
    let ifMatch := Header_Get headers "If-Match" in
    if negb (streq ifMatch "") then s3.SetIfMatch oi ifMatch else oi in
  let oi :=
    let ifNoneMatch := Header_Get headers "If-None-Match" in
    if negb (streq ifNoneMatch "") then s3.SetIfNoneMatch oi ifNoneMatch else oi in
  let oi :=
    let ifModifiedSince := Header_Get headers "If-Modified-Since" in
    if negb (streq ifModifiedSince "") then
      let '(t, err) := time_Parse http.TimeFormat ifModifiedSince in
      match err with
      | None => s3.SetIfModifiedSince oi t
      | Some _ => oi
      end
    else oi in
  let oi :=
    let ifUnmodifiedSince := Header_Get headers "If-Unmodified-Since" in
    if negb (streq ifUnmodifiedSince "") then
      let '(t, err) := time_Parse http.TimeFormat ifUnmodifiedSince in
      match err with
      | None => s3.SetIfUnmodifiedSince oi t
      | Some _ => oi
      end
    else oi in
  oi.

(** The logging calls of the source write to the logger only and are left
    out; the three branches of the [switch] on the error code are kept. *)
Definition getS3Object (p : S3Proxy) (bucket key : gostring) (r : http.Request)
  : M (option s3.GetObjectOutput * option error) :=
  let oi := getObjectInput bucket key r in
  '(obj, err) ← call_GetObject p oi;
  match err with
  | Some e =>
      match e with
      | awserr_Error code _ =>
          if streq code "NotModified" then
            _ ← on_writer (λ w, http.WriteHeader w 304);
            mret (obj, None)
          else if streq code "NoSuchKey" then
            mret (obj, Some e)
          else
            mret (obj, Some e)
      | errors_New _ => mret (obj, Some e)
      end
  | None =>
      (* *obj.ContentLength == 0 *)
      match obj with
      | None => panic "invalid memory address or nil pointer dereference"
      | Some o =>
          match s3.ContentLength o with
          | None => panic "invalid memory address or nil pointer dereference"
          | Some n =>
              if (n =? 0)%Z
              then mret (obj, Some (errors_New "ContentLength is empty - cache is "))
              else mret (obj, None)
          end
      end
  end.

Definition writeResponseFromGetObject (obj : option s3.GetObjectOutput) : M (option error) :=
  match obj with
  | None => panic "invalid memory address or nil pointer dereference"
  | Some obj =>
      (* Copy headers from AWS response to our response *)
      _ ← on_writer (λ w, setStrHeader w "Cache-Control" (s3.CacheControl obj));
      _ ← on_writer (λ w, setStrHeader w "Content-Disposition" (s3.ContentDisposition obj));
      _ ← on_writer (λ w, setStrHeader w "Content-Encoding" (s3.ContentEncoding obj));
      _ ← on_writer (λ w, setStrHeader w "Content-Language" (s3.ContentLanguage obj));
      _ ← on_writer (λ w, setStrHeader w "Content-Range" (s3.ContentRange obj));
      _ ← on_writer (λ w, setStrHeader w "Content-Type" (s3.ContentType obj));
      _ ← on_writer (λ w, setStrHeader w "ETag" (s3.ETag obj));
      _ ← on_writer (λ w, setStrHeader w "Expires" (s3.Expires obj));
      _ ← on_writer (λ w, setTimeHeader w "Last-Modified" (s3.LastModified obj));
      (* Adds all custom headers which where used on this object *)
      _ ← on_writer (λ w, setMetadataHeaders w (s3.Metadata obj));
      _ ← on_writer (λ w, http.with_header w (Header_Set (http.header w) "X-Cache-S3" "hit"));
      match s3.Body obj with
      | Some body =>
          (* io.Copy will set Content-Length *)
          _ ← on_writer (λ w, http.with_header w (Header_Del (http.header w) "Content-Length"));
          call_io_Copy body
      | None => mret None
      end
  end.

Definition GetHandler (p : S3Proxy) (r : http.Request) (fullPath : gostring) : M (option error) :=
  let s3Key := s3Key fullPath (http.URL_RawQuery r) in
  '(obj, err) ← getS3Object p (Bucket p) s3Key r;
  match err with
  | Some e => mret (Some e)
  | None => writeResponseFromGetObject obj
  end.

(** The main entry point for a request. *)
Definition ServeHTTP (p : S3Proxy) (r : http.Request) (next : Handler) : M (option error) :=
  if negb (streq (http.Method r) http.MethodGet) then
    (* As of now only support GET requests *)
    call_next next r
  else
    match http.Replacer r with
    | None => panic "interface conversion: interface {} is nil, not *caddy.Replacer"
    | Some repl =>
        fullPath ← lift (joinPath (repl (Root p) "") (http.URL_Path r));
        err ← GetHandler p r fullPath;
        match err with
        | None => mret None
        | Some _ => call_next next r
        end
    end.

End handler.

(** ** Running the handler

    To run the handler on a request, the three library functions it is
    embedded over are given here: the canonical form of a header key as
    [net/textproto] computes it, and a [time] package that knows one date. *)

Module textproto.

Definition isLower (c : ascii) : bool :=
  let n := nat_of_ascii c in (97 <=? n) && (n <=? 122).

Definition isUpper (c : ascii) : bool :=
  let n := nat_of_ascii c in (65 <=? n) && (n <=? 90).

Definition isDigit (c : ascii) : bool :=
  let n := nat_of_ascii c in (48 <=? n) && (n <=? 57).

(** The token bytes of RFC 7230. *)
Definition validHeaderFieldByte (c : ascii) : bool :=
  isLower c || isUpper c || isDigit c || bool_decide (c ∈ str "!#$%&'*+-.^_`|~").

(** First letter upper case and upper case after each dash, the others
    lower case. *)
Fixpoint canonical (upper : bool) (a : gostring) : gostring :=
  match a with
  | [] => []
  | c :: a' =>
      let c :=
        if upper && isLower c then ascii_of_nat (nat_of_ascii c - 32)
        else if negb upper && isUpper c then ascii_of_nat (nat_of_ascii c + 32)
        else c in
      c :: canonical (Ascii.eqb c "-") a'
  end.

(** A key with a byte that is no token byte is returned as it is. *)
Definition CanonicalMIMEHeaderKey (s : gostring) : gostring :=
  if forallb validHeaderFieldByte s then canonical true s else s.

End textproto.

Module sample.

Definition date : gostring := "Wed, 21 Oct 2015 07:28:00 GMT".

(** 2015-10-21 07:28:00 UTC, in seconds since January 1, year 1. *)
Definition date_Time : Time := {| wall := 0; ext := 63581009280; loc := None |}.

Definition time_Parse (layout value : gostring) : Time * option error :=
  if streq layout http.TimeFormat && streq value date
  then (date_Time, None)
  else (Time_zero, Some (errors_New "parsing time: cannot parse")).

Definition time_UTC_Format (t : Time) (layout : gostring) : gostring :=
  if Time_DeepEqual t date_Time && streq layout http.TimeFormat then date else "".

Definition Header_Get := Header_Get textproto.CanonicalMIMEHeaderKey.
Definition Header_Set := Header_Set textproto.CanonicalMIMEHeaderKey.
Definition ServeHTTP := ServeHTTP textproto.CanonicalMIMEHeaderKey time_Parse time_UTC_Format.
Definition writeResponseFromGetObject :=
  writeResponseFromGetObject textproto.CanonicalMIMEHeaderKey time_UTC_Format.

(** A fresh response writer and no call made. *)
Definition w0 : http.ResponseWriter := {| http.header := ∅; http.wroteHeader := None; http.body := [] |}.
Definition world0 : World := {| resp := w0; trace := [] |}.

(** A replacer that knows no placeholder: it puts [empty] for each. *)
Definition noRoot (input empty : gostring) : gostring :=
  if streq input "{http.vars.root}" then empty else input.

(** A next handler that answers 404. *)
Definition notFound : Handler := λ w _, (http.WriteHeader w 404, None).

Definition get (urlPath rawQuery : gostring) (h : http.Header) : http.Request :=
  {| http.Method := "GET"; http.URL_Path := urlPath; http.URL_RawQuery := rawQuery;
     http.Header_ := h; http.Replacer := Some noRoot |}.

Definition proxy (root : gostring) (c : s3.Client) : S3Proxy :=
  {| Root := root; Region := "eu-central-1"; Bucket := "bucket"; Endpoint := "";
     S3UseAccelerate := false; client := c |}.

Definition post (urlPath rawQuery : gostring) (h : http.Header) : http.Request :=
  {| http.Method := "POST"; http.URL_Path := urlPath; http.URL_RawQuery := rawQuery;
     http.Header_ := h; http.Replacer := Some noRoot |}.

(** Storage clients with one answer to every request.  With an error, the
    client of the SDK returns the output it allocated for the request,
    with nothing filled in. *)
Definition notModified : s3.Client :=
  λ _, (Some s3.empty_output, Some (awserr_Error "NotModified" "Not Modified")).

Definition noSuchKey : s3.Client :=
  λ _, (Some s3.empty_output,
        Some (awserr_Error "NoSuchKey" "The specified key does not exist.")).

Definition emptyObject : s3.GetObjectOutput :=
  {| s3.Body := Some {| data := []; read_err := None |}; s3.CacheControl := None;
     s3.ContentDisposition := None; s3.ContentEncoding := None; s3.ContentLanguage := None;
     s3.ContentLength := Some 0%Z; s3.ContentRange := None;
     s3.ContentType := Some (str "text/html"); s3.ETag := None; s3.Expires := None;
     s3.LastModified := None; s3.Metadata := [] |}.

(** A page of five bytes with two entries of metadata, one of them with
    the empty value. *)
Definition page : s3.GetObjectOutput :=
  {| s3.Body := Some {| data := "hello"; read_err := None |}; s3.CacheControl := None;
     s3.ContentDisposition := None; s3.ContentEncoding := None; s3.ContentLanguage := None;
     s3.ContentLength := Some 5%Z; s3.ContentRange := None;
     s3.ContentType := Some (str "text/html"); s3.ETag := None; s3.Expires := None;
     s3.LastModified := None;
     s3.Metadata := [(str "x-foo", Some (str "bar")); (str "x-empty", Some (str ""))] |}.

Definition found (o : s3.GetObjectOutput) : s3.Client := λ _, (Some o, None).

(** A client that refuses every request. *)
Definition accessDenied : s3.Client :=
  λ _, (Some s3.empty_output, Some (awserr_Error "AccessDenied" "Access Denied")).


(** The storage request for [key] in the bucket of [proxy], without
    validators. *)
Definition input (key : gostring) : s3.GetObjectInput :=
  {| s3.Bucket := Some (str "bucket"); s3.Key := Some key; s3.Range := None;
     s3.IfMatch := None; s3.IfNoneMatch := None; s3.IfModifiedSince := None;
     s3.IfUnmodifiedSince := None |}.

End sample.

(** ** Provisioning *)

Module aws.

(** The fields of [aws.Config] that [Provision] sets; [None] is the nil
    pointer of the zero [Config]. *)
Record Config : Type := {
  Region : option gostring;
  Endpoint : option gostring;
  S3UseAccelerate : option bool
}.

End aws.

(** [Provision] works on the proxy through its pointer: it returns the
    proxy as it leaves it, and its error.  [session.NewSession] and [s3.New]
    are the two functions of the SDK it calls; the logger is left out. *)
Definition Provision {Session : Type}
    (NewSession : aws.Config → Session * option error) (s3_New : Session → s3.Client)
    (p : S3Proxy) : S3Proxy * option error :=
  let p :=
    if streq (Root p) "" then
      {| Root := "{http.vars.root}"; Region := Region p; Bucket := Bucket p;
         Endpoint := Endpoint p; S3UseAccelerate := S3UseAccelerate p; client := client p |}
    else p in
  let config := {| aws.Region := None; aws.Endpoint := None; aws.S3UseAccelerate := None |} in
  (* If Region is not specified NewSession will look for it from an env value AWS_REGION *)
  let config :=
    if negb (streq (Region p) "") then
      {| aws.Region := Some (Region p); aws.Endpoint := aws.Endpoint config;
         aws.S3UseAccelerate := aws.S3UseAccelerate config |}
    else config in
  let config :=
    if negb (streq (Endpoint p) "") then
      {| aws.Region := aws.Region config; aws.Endpoint := Some (Endpoint p);
         aws.S3UseAccelerate := aws.S3UseAccelerate config |}
    else config in
  let config :=
    if S3UseAccelerate p then
      {| aws.Region := aws.Region config; aws.Endpoint := aws.Endpoint config;
         aws.S3UseAccelerate := Some (S3UseAccelerate p) |}
    else config in
  let '(sess, err) := NewSession config in
  match err with
  | Some e => (p, Some e)
  | None =>
      (* Create S3 service client *)
      ({| Root := Root p; Region := Region p; Bucket := Bucket p; Endpoint := Endpoint p;
          S3UseAccelerate := S3UseAccelerate p; client := s3_New sess |}, None)
  end.

(** An SDK to run [Provision] with: a session is the configuration it
    was made from, making one never fails, and every session gives the
    client that has the page. *)
Module sdk.

Definition NewSession (config : aws.Config) : aws.Config * option error := (config, None).
Definition s3_New (sess : aws.Config) : s3.Client := sample.found sample.page.

End sdk.

(** ** Notions the statements use *)

(** The eight fields of the output that [writeResponseFromGetObject]
    copies by name, with the header of each, in the order of the calls. *)
Definition named_headers (o : s3.GetObjectOutput) : list (gostring * option gostring) :=
  [(str "Cache-Control", s3.CacheControl o);
   (str "Content-Disposition", s3.ContentDisposition o);
   (str "Content-Encoding", s3.ContentEncoding o);
   (str "Content-Language", s3.ContentLanguage o);
   (str "Content-Range", s3.ContentRange o);
   (str "Content-Type", s3.ContentType o);
   (str "ETag", s3.ETag o);
   (str "Expires", s3.Expires o)].

(** The keys [writeResponseFromGetObject] writes headers under: those of
    the named fields, the three it names besides, and those of the
    metadata. *)
Definition written_keys (o : s3.GetObjectOutput) : list gostring :=
  map fst (named_headers o)
  ++ [str "Last-Modified"; str "X-Cache-S3"; str "Content-Length"]
  ++ map fst (s3.Metadata o).

(** The five headers of a request that [getS3Object] reads. *)
Definition validators : list gostring :=
  [str "Range"; str "If-Match"; str "If-None-Match"; str "If-Modified-Since";
   str "If-Unmodified-Since"].

(** A path element that [Clean] copies: not empty, without a separator,
    and neither [.] nor [..]. *)
Definition real_element (e : gostring) : Prop :=
  e ≠ [] ∧ (slash ∉ e) ∧ e ≠ str "." ∧ e ≠ str "..".

(** The path of the elements [es], each behind a separator. *)
Definition rooted_path (es : list gostring) : gostring := concat (map (cons slash) es).

(** What holds of the buffer of [Clean] on a rooted path: the byte written
    first is the separator, and [dotdot] stays 1. *)
Definition rooted_inv (rooted : bool) (out : list ascii) (dotdot : nat) : Prop :=
  rooted = true → dotdot = 1 ∧ ∃ o, out = o ++ [slash].

(** The buffer after [Clean] has added the separator a real element needs
    before it. *)
Definition with_separator (rooted : bool) (out : list ascii) : list ascii :=
  if (rooted && negb (length out =? 1)) || (negb rooted && negb (length out =? 0))
  then slash :: out else out.

(** The buffers [Clean] builds, with the value of [dotdot] that goes with
    each: the buffer at the start, a buffer with a [..] element appended
    where it could not go back, and a buffer with a real element appended. *)
Inductive buffer_form (rooted : bool) : list ascii → nat → Prop :=
| bf_init :
    buffer_form rooted (if rooted then [slash] else []) (if rooted then 1 else 0)
| bf_dotdot out dd :
    rooted = false → buffer_form rooted out dd → length out = dd →
    buffer_form rooted (dot :: dot :: with_separator false out)
      (length (dot :: dot :: with_separator false out))
| bf_real out dd e :
    buffer_form rooted out dd → real_element e →
    buffer_form rooted (rev e ++ with_separator rooted out) dd.

(** The part of a path the loop of [Clean] reads: all of it, or what
    follows the first separator of a rooted path. *)
Definition unroot (rooted : bool) (s : gostring) : gostring :=
  if rooted then tail s else s.

(** [s] begins with a separator. *)
Definition is_rooted (s : gostring) : bool :=
  match s with
  | c :: _ => Ascii.eqb c slash
  | [] => false
  end.

(** A metadata entry with a value that is there and not empty. *)
Definition has_value (entry : gostring * option gostring) : bool :=
  match snd entry with
  | Some v => 0 <? length v
  | None => false
  end.

(** A lowercase hexadecimal digit. *)
Definition lower_hex (c : ascii) : Prop := c ∈ hex.hextable.

(** * Facts *)

(** ** [path.Clean] *)

Example Clean_cleantests :
  forallb (λ t, streq (path.Clean (str (fst t))) (str (snd t))) path.cleantests = true.
Proof. vm_compute. reflexivity. Qed.

Lemma streq_true a b : streq a b = true ↔ a = b.
Proof. unfold streq. apply bool_decide_eq_true. Qed.

Lemma streq_false a b : streq a b = false ↔ a ≠ b.
Proof. unfold streq. apply bool_decide_eq_false. Qed.

Lemma streq_refl a : streq a a = true.
Proof. by apply streq_true. Qed.

Section path_facts.

Import path.

(* The buffer the real-element case copies into. *)
Ltac name_out1 :=
  match goal with
  | |- context [copy_element _ (_ :: ?o)] => set (out1 := o)
  end.

Lemma clean_loop_nil fuel rooted out dd : clean_loop fuel rooted [] out dd = out.
Proof. destruct fuel; reflexivity. Qed.

Lemma copy_element_length rest out :
  length (fst (copy_element rest out)) ≤ length rest.
Proof.
  revert out. induction rest as [|c rest IH]; intros out; cbn; [lia|].
  destruct (Ascii.eqb c slash); cbn; [lia|].
  specialize (IH (c :: out)). lia.
Qed.

Lemma copy_element_extends rest out : ∃ o, snd (copy_element rest out) = o ++ out.
Proof.
  revert out. induction rest as [|c rest IH]; intros out; cbn; [by exists []|].
  destruct (Ascii.eqb c slash); cbn; [by exists []|].
  destruct (IH (c :: out)) as [o ->]. exists (o ++ [c]). by rewrite <- app_assoc.
Qed.

(** Fuel beyond the length of what is left to read changes nothing. *)
Lemma clean_loop_fuel fuel1 fuel2 rooted rest out dd :
  length rest ≤ fuel1 → length rest ≤ fuel2 →
  clean_loop fuel1 rooted rest out dd = clean_loop fuel2 rooted rest out dd.
Proof.
  revert fuel2 rest out dd.
  induction fuel1 as [|fuel1 IH]; intros fuel2 rest out dd H1 H2.
  - destruct rest; [|cbn in H1; lia]. by rewrite !clean_loop_nil.
  - destruct rest as [|c r1]; [by rewrite !clean_loop_nil|].
    destruct fuel2 as [|fuel2]; [cbn in H2; lia|].
    cbn in H1, H2. cbn [clean_loop].
    destruct (Ascii.eqb c slash) eqn:Ec; [apply IH; lia|].
    destruct (Ascii.eqb c dot && ends_element r1); [apply IH; lia|].
    assert (Ht : length (tail r1) ≤ length r1) by (destruct r1; cbn; lia).
    destruct (Ascii.eqb c dot && _).
    + repeat case_match; apply IH; lia.
    + pose proof (copy_element_length r1 (c :: (if (rooted && negb (length out =? 1))
            || (negb rooted && negb (length out =? 0)) then slash :: out else out))) as Hl.
      cbn [copy_element]. rewrite Ec.
      destruct (copy_element r1 _) as [rest' out2]. cbn in Hl. apply IH; lia.
Qed.

Lemma backtrack_rooted out :
  1 < length out → (∃ o, out = o ++ [slash]) → ∃ o, backtrack 1 out = o ++ [slash].
Proof.
  induction out as [|c out IH]; intros Hlen [o Ho]; [cbn in Hlen; lia|].
  cbn in Hlen. cbn [backtrack].
  assert (Hout : ∃ o', out = o' ++ [slash]).
  { destruct o as [|c' o']; cbn in Ho.
    - injection Ho as _ ->. cbn in Hlen. lia.
    - injection Ho as _ ->. by exists o'. }
  destruct (1 <? length out) eqn:E; cbn [andb]; [|done].
  apply Nat.ltb_lt in E. destruct (negb (Ascii.eqb c slash)); [auto|done].
Qed.

(** Up to the next separator, the element is copied. *)
Lemma copy_element_split p q out :
  ∃ p1 p2, p = p1 ++ p2 ∧
    copy_element (p ++ slash :: q) out = (p2 ++ slash :: q, rev p1 ++ out).
Proof.
  revert out. induction p as [|c p IH]; intros out.
  - exists [], []. done.
  - cbn [app copy_element]. destruct (Ascii.eqb c slash) eqn:Ec.
    + exists [], (c :: p). done.
    + destruct (IH (c :: out)) as (p1 & p2 & -> & Heq).
      exists (c :: p1), p2. split; [done|]. rewrite Heq. cbn [rev].
      by rewrite <- app_assoc.
Qed.

Lemma copy_element_noslash e q out :
  slash ∉ e → ends_element q = true →
  copy_element (e ++ q) out = (q, rev e ++ out).
Proof.
  revert out. induction e as [|c e IH]; intros out He Hq.
  - destruct q as [|c q]; [done|]. cbn in *. by rewrite Hq.
  - apply not_elem_of_cons in He as [Hc He].
    cbn [app copy_element].
    destruct (Ascii.eqb c slash) eqn:Ec; [apply Ascii.eqb_eq in Ec; congruence|].
    rewrite IH by done. cbn [rev]. by rewrite <- app_assoc.
Qed.

(** The invariant of a rooted buffer is kept by the loop. *)
Lemma clean_loop_rooted fuel rest out :
  (∃ o, out = o ++ [slash]) → ∃ o, clean_loop fuel true rest out 1 = o ++ [slash].
Proof.
  revert rest out. induction fuel as [|fuel IH]; intros rest out Hout; [done|].
  destruct rest as [|c r1]; [done|]. cbn [clean_loop].
  destruct (Ascii.eqb c slash) eqn:Ec; [auto|].
  destruct (Ascii.eqb c dot && ends_element r1); [auto|].
  destruct (Ascii.eqb c dot && _).
  - destruct (1 <? length out) eqn:E; [|cbn [negb]; auto].
    apply Nat.ltb_lt in E. apply IH. by apply backtrack_rooted.
  - cbn [copy_element]. rewrite Ec.
    name_out1.
    destruct (copy_element r1 (c :: out1)) as [rest' out2] eqn:Hc.
    apply IH. destruct Hout as [o ->].
    assert (Hsp : ∃ o', out2 = o' ++ c :: out1).
    { destruct (copy_element_extends r1 (c :: out1)) as [o' Ho']. rewrite Hc in Ho'. eauto. }
    destruct Hsp as [o' ->]. subst out1.
    destruct (_ || _).
    + exists (o' ++ c :: slash :: o). by rewrite <- app_assoc.
    + exists (o' ++ c :: o). by rewrite <- app_assoc.
Qed.

(** Reading a path up to one of its separators leaves the loop in some
    state of the buffer, from which it reads what follows. *)
Lemma clean_loop_split fuel rooted p q out dd :
  length (p ++ slash :: q) ≤ fuel → rooted_inv rooted out dd →
  ∃ out' dd', rooted_inv rooted out' dd' ∧
    clean_loop fuel rooted (p ++ slash :: q) out dd = clean_loop (length q) rooted q out' dd'.
Proof.
  revert p out dd. induction fuel as [|fuel IH]; intros p out dd Hlen Hinv.
  { rewrite length_app in Hlen. cbn in Hlen. lia. }
  destruct p as [|c p].
  - exists out, dd. split; [done|]. cbn [app clean_loop]. rewrite Ascii.eqb_refl.
    cbn in Hlen. apply clean_loop_fuel; lia.
  - cbn [app] in *. cbn [length] in Hlen. cbn [clean_loop].
    destruct (Ascii.eqb c slash) eqn:Ec; [apply IH; [lia|done]|].
    destruct (Ascii.eqb c dot && ends_element (p ++ slash :: q)); [apply IH; [lia|done]|].
    destruct (Ascii.eqb c dot && _) eqn:Edd.
    + apply andb_true_iff in Edd as [_ Edd].
      destruct p as [|c' p]; cbn [app] in Edd.
      { apply andb_true_iff in Edd as [Edd _]. vm_compute in Edd. discriminate. }
      cbn [app tail]. cbn [app length] in Hlen.
      destruct (dd <? length out) eqn:E.
      * apply IH; [lia|]. intros ->. destruct (Hinv eq_refl) as [-> Ho].
        split; [done|]. apply Nat.ltb_lt in E. by apply backtrack_rooted.
      * destruct rooted; cbn [negb]; (apply IH; [lia|done]).
    + cbn [copy_element]. rewrite Ec.
      name_out1.
      destruct (copy_element_split p q (c :: out1)) as (p1 & p2 & -> & ->).
      apply IH.
      * rewrite !length_app in *. cbn [length] in *. lia.
      * intros ->. destruct (Hinv eq_refl) as [-> [o ->]]. split; [done|].
        subst out1. destruct (_ || _).
        -- exists (rev p1 ++ c :: slash :: o). by rewrite <- app_assoc.
        -- exists (rev p1 ++ c :: o). by rewrite <- app_assoc.
Qed.

(** A real element is copied, after a separator where the buffer needs
    one. *)
Lemma clean_loop_real fuel rooted e q out dd :
  real_element e → ends_element q = true →
  clean_loop (S fuel) rooted (e ++ q) out dd =
  clean_loop fuel rooted q (rev e ++ with_separator rooted out) dd.
Proof.
  intros (Hne & Hsl & Hdot & Hdd) Hq.
  destruct e as [|c e]; [done|].
  assert (Hends : ∀ e', slash ∉ e' → e' ≠ [] → ends_element (e' ++ q) = false).
  { intros [|c' e'] He' ?; [done|]. cbn. apply not_elem_of_cons in He' as [? _].
    destruct (Ascii.eqb c' slash) eqn:E; [apply Ascii.eqb_eq in E; congruence|done]. }
  pose proof Hsl as Hsl'. apply not_elem_of_cons in Hsl' as [Hc He].
  assert (Ec : Ascii.eqb c slash = false).
  { destruct (Ascii.eqb c slash) eqn:E; [apply Ascii.eqb_eq in E; congruence|done]. }
  cbn [app clean_loop]. rewrite Ec.
  destruct (Ascii.eqb c dot) eqn:Ed; cbn [andb].
  - apply Ascii.eqb_eq in Ed as ->.
    destruct e as [|c' e]; [done|].
    rewrite (Hends (c' :: e)) by done.
    cbn [app]. destruct (Ascii.eqb c' dot) eqn:Ed'; cbn [andb].
    + apply Ascii.eqb_eq in Ed' as ->. destruct e as [|c'' e]; [done|].
      apply not_elem_of_cons in He as [_ He].
      rewrite (Hends (c'' :: e)) by done.
      change (dot :: dot :: (c'' :: e) ++ q) with ((dot :: dot :: c'' :: e) ++ q).
      by rewrite copy_element_noslash.
    + change (dot :: c' :: e ++ q) with ((dot :: c' :: e) ++ q).
      by rewrite copy_element_noslash.
  - change (c :: e ++ q) with ((c :: e) ++ q). by rewrite copy_element_noslash.
Qed.

Lemma clean_loop_slash fuel rooted q out dd :
  clean_loop (S fuel) rooted (slash :: q) out dd = clean_loop fuel rooted q out dd.
Proof. reflexivity. Qed.

(** The last element of a path, when it is a real one. *)
Lemma clean_loop_last fuel rooted e out dd :
  real_element e → length e ≤ fuel →
  clean_loop fuel rooted e out dd = rev e ++ with_separator rooted out.
Proof.
  intros He Hlen.
  rewrite (clean_loop_fuel fuel (S (length e))) by lia.
  rewrite <- (app_nil_r e) at 2.
  rewrite clean_loop_real by done. by rewrite clean_loop_nil.
Qed.

(** What [with_separator] leaves in front of the element. *)
Lemma with_separator_rev rooted out dd :
  rooted_inv rooted out dd →
  (rooted = false ∧ rev (with_separator rooted out) = []) ∨
  (∃ pre, rev (with_separator rooted out) = pre ++ [slash]).
Proof.
  intros Hinv. unfold with_separator. destruct rooted; cbn [andb orb negb].
  - right. destruct (Hinv eq_refl) as [_ [o ->]]. rewrite orb_false_r.
    destruct (_ =? 1) eqn:E; cbn [negb].
    + apply Nat.eqb_eq in E. rewrite length_app in E. cbn in E.
      destruct o; [|cbn in E; lia]. by exists [].
    + cbn [rev]. eauto.
  - destruct out as [|c out]; [by left|]. right. cbn [length Nat.eqb negb]. cbn [rev]. eauto.
Qed.

(** [Clean] on a path with a separator in it: the loop reaches what is
    behind the separator in some state of the buffer. *)
Lemma Clean_after_slash p q :
  ∃ out dd, rooted_inv (is_rooted (p ++ [slash])) out dd ∧
    Clean (p ++ slash :: q) =
    out_string (clean_loop (length q) (is_rooted (p ++ [slash])) q out dd).
Proof.
  destruct p as [|c p].
  - exists [slash], 1. split; [intros _; split; [done|by exists []]|].
    cbn -[clean_loop]. f_equal. apply clean_loop_fuel; lia.
  - cbn [app is_rooted Clean]. destruct (Ascii.eqb c slash) eqn:Ec.
    + destruct (clean_loop_split (length (c :: p ++ slash :: q)) true p q [slash] 1)
        as (out & dd & Hinv & Heq).
      { cbn. lia. }
      { intros _. split; [done|by exists []]. }
      exists out, dd. split; [done|]. by rewrite Heq.
    + destruct (clean_loop_split (length (c :: p ++ slash :: q)) false (c :: p) q [] 0)
        as (out & dd & Hinv & Heq).
      { done. }
      { intros ?; done. }
      exists out, dd. split; [done|]. by rewrite <- Heq.
Qed.

Lemma out_string_app e out : e ≠ [] → out_string (rev e ++ out) = rev out ++ e.
Proof.
  intros He. unfold out_string.
  destruct (rev e ++ out) eqn:E.
  - apply app_eq_nil in E as [E _]. apply (f_equal (@rev ascii)) in E.
    rewrite rev_involutive in E. done.
  - rewrite <- E. by rewrite rev_app_distr, rev_involutive.
Qed.

(** A real element after a separator ends the cleaned path: it is the
    whole of it, or it follows a separator. *)
Lemma Clean_last_element p e :
  real_element e →
  (is_rooted (p ++ [slash]) = false ∧ Clean (p ++ slash :: e) = e) ∨
  (∃ pre, Clean (p ++ slash :: e) = pre ++ slash :: e).
Proof.
  intros He. destruct (Clean_after_slash p e) as (out & dd & Hinv & ->).
  rewrite clean_loop_last by done.
  rewrite out_string_app by apply He.
  destruct (with_separator_rev _ _ _ Hinv) as [[Hr ->]|[pre ->]].
  - by left.
  - right. exists pre. by rewrite <- app_assoc.
Qed.

(** The cleaned form of a rooted path is rooted. *)
Lemma Clean_rooted p : is_rooted p = true → is_rooted (Clean p) = true.
Proof.
  destruct p as [|c p]; [done|]. cbn [is_rooted Clean]. intros ->.
  destruct (clean_loop_rooted (length (c :: p)) p [slash]) as [o ->]; [by exists []|].
  unfold out_string. destruct (o ++ [slash]) eqn:E.
  - by destruct o.
  - rewrite <- E, rev_app_distr. done.
Qed.

(** *** The form of the buffer *)

Lemma buffer_form_le rooted out dd : buffer_form rooted out dd → dd ≤ length out.
Proof.
  induction 1 as [| |out dd e Hf IH He].
  - by destruct rooted.
  - done.
  - rewrite length_app. unfold with_separator. destruct (_ || _); cbn; lia.
Qed.

Lemma buffer_form_rooted out dd :
  buffer_form true out dd → dd = 1 ∧ ∃ o, out = o ++ [slash].
Proof.
  induction 1 as [| |out dd e Hf [-> [o ->]] He].
  - split; [done|by exists []].
  - done.
  - split; [done|]. unfold with_separator. destruct (_ || _).
    + exists (rev e ++ slash :: o). by rewrite <- app_assoc.
    + exists (rev e ++ o). by rewrite <- app_assoc.
Qed.

(** Where no separator is added, the buffer is as it was at the start. *)
Lemma with_separator_cases rooted out dd :
  buffer_form rooted out dd →
  with_separator rooted out = slash :: out ∨
  (with_separator rooted out = out ∧ length out = dd ∧
   out = (if rooted then [slash] else [])).
Proof.
  intros Hf. unfold with_separator. destruct rooted; cbn [andb orb negb].
  - destruct (buffer_form_rooted _ _ Hf) as [-> [o ->]]. rewrite orb_false_r.
    destruct (_ =? 1) eqn:E; cbn [negb]; [|by left]. right.
    apply Nat.eqb_eq in E. rewrite length_app in E. cbn in E.
    destruct o; [done|cbn in E; lia].
  - destruct out as [|c out]; [|by left]. right.
    pose proof (buffer_form_le _ _ _ Hf) as Hle. cbn in Hle.
    split_and!; [done|cbn; lia|done].
Qed.

(** Going back over a real element gives the buffer from before it. *)
Lemma backtrack_real rooted out dd e :
  buffer_form rooted out dd → real_element e →
  backtrack dd (rev e ++ with_separator rooted out) = out.
Proof.
  intros Hf (Hne & Hs & _).
  assert (Hs' : slash ∉ rev e).
  { intros H. apply Hs. by apply list_elem_of_In, in_rev, list_elem_of_In. }
  assert (Hne' : rev e ≠ []).
  { intros E. apply (f_equal (@rev ascii)) in E. by rewrite rev_involutive in E. }
  pose proof (buffer_form_le _ _ _ Hf) as Hle.
  pose proof (with_separator_cases _ _ _ Hf) as Hsep.
  induction (rev e) as [|c l IH]; [done|].
  apply not_elem_of_cons in Hs' as [Hc Hl].
  assert (Ec : Ascii.eqb c slash = false).
  { destruct (Ascii.eqb c slash) eqn:E; [apply Ascii.eqb_eq in E; congruence|done]. }
  cbn [app backtrack]. rewrite Ec. cbn [negb]. rewrite andb_true_r.
  destruct l as [|c' l].
  - cbn [app]. destruct Hsep as [->|(-> & Hlen & _)].
    + cbn [length]. replace (dd <? S (length out)) with true
        by (symmetry; apply Nat.ltb_lt; lia).
      cbn [backtrack]. rewrite Ascii.eqb_refl. cbn [negb]. by rewrite andb_false_r.
    + replace (dd <? length out) with false by (symmetry; apply Nat.ltb_ge; lia). done.
  - replace (dd <? length ((c' :: l) ++ with_separator rooted out)) with true.
    + by apply IH.
    + symmetry. apply Nat.ltb_lt. rewrite length_app. cbn [length].
      destruct Hsep as [->|(-> & _)]; cbn [length]; lia.
Qed.

Lemma backtrack_form rooted out dd :
  buffer_form rooted out dd → dd < length out →
  buffer_form rooted (backtrack dd out) dd.
Proof.
  intros Hf Hlt. destruct Hf as [|out dd Hr Hf Hlen|out dd e Hf He].
  - destruct rooted; cbn in Hlt; lia.
  - lia.
  - by erewrite backtrack_real.
Qed.

(** The bytes up to the next separator. *)
Lemma first_element l :
  ∃ e q, l = e ++ q ∧ (slash ∉ e) ∧ ends_element q = true ∧
         ∀ out, copy_element l out = (q, rev e ++ out).
Proof.
  induction l as [|c l (e & q & -> & He & Hq & Hc)].
  - exists [], []. split_and!; [done|apply not_elem_of_nil|done|done].
  - destruct (Ascii.eqb c slash) eqn:Ec.
    + exists [], (c :: e ++ q). split_and!; [done|apply not_elem_of_nil|done|].
      intros out. cbn. by rewrite Ec.
    + exists (c :: e), q. split_and!; [done| |done|].
      * apply not_elem_of_cons. split; [|done]. intros <-. by rewrite Ascii.eqb_refl in Ec.
      * intros out. cbn. rewrite Ec, Hc. by rewrite <- app_assoc.
Qed.

(** The element the last case of the loop copies is a real one. *)
Lemma default_real c r1 e q :
  c :: r1 = e ++ q → slash ∉ e → ends_element q = true →
  Ascii.eqb c slash = false →
  Ascii.eqb c dot && ends_element r1 = false →
  Ascii.eqb c dot && match r1 with
                     | c' :: r2 => Ascii.eqb c' dot && ends_element r2
                     | [] => false
                     end = false →
  real_element e.
Proof.
  intros Heq He Hq Ec Hdot Hdd.
  destruct e as [|c0 e]; cbn in Heq.
  { subst q. cbn in Hq. congruence. }
  injection Heq as <- ->. split_and!; [done|done| |].
  - intros [= -> ->]. cbn in Hdot. congruence.
  - intros [= -> E]. destruct e as [|c1 [|? ?]]; try done.
    injection E as ->. cbn in Hdd. congruence.
Qed.

Lemma with_separator_unrooted out :
  (if 0 <? length out then slash :: out else out) = with_separator false out.
Proof. by destruct out. Qed.

(** The loop keeps the buffer in form. *)
Lemma clean_loop_form fuel rooted rest out dd :
  buffer_form rooted out dd →
  ∃ dd', buffer_form rooted (clean_loop fuel rooted rest out dd) dd'.
Proof.
  revert rest out dd. induction fuel as [|fuel IH]; intros rest out dd Hf; [by exists dd|].
  destruct rest as [|c r1]; [by exists dd|]. cbn [clean_loop].
  destruct (Ascii.eqb c slash) eqn:Ec; [by apply IH|].
  destruct (Ascii.eqb c dot && ends_element r1) eqn:Edot; [by apply IH|].
  destruct (Ascii.eqb c dot && match r1 with
                               | c' :: r2 => Ascii.eqb c' dot && ends_element r2
                               | [] => false
                               end) eqn:Edd.
  - destruct (dd <? length out) eqn:E.
    + apply IH. apply backtrack_form; [done|]. by apply Nat.ltb_lt.
    + destruct rooted; cbn [negb]; [by apply IH|].
      apply IH. rewrite with_separator_unrooted. apply (bf_dotdot _ _ dd); [done|done|].
      apply Nat.ltb_ge in E. pose proof (buffer_form_le _ _ _ Hf). lia.
  - destruct (first_element (c :: r1)) as (e & q & Heq & He & Hq & Hc).
    rewrite Hc. apply IH. fold (with_separator rooted out). apply bf_real; [done|].
    by apply (default_real c r1 e q).
Qed.

(** *** Reading a cleaned path again *)

Lemma buffer_form_rev_rooted out dd :
  buffer_form true out dd → ∃ t, rev out = slash :: t.
Proof.
  intros Hf. destruct (buffer_form_rooted _ _ Hf) as [_ [o ->]].
  rewrite rev_app_distr. cbn. eauto.
Qed.

Lemma unroot_app rooted out dd X :
  buffer_form rooted out dd →
  unroot rooted (rev out ++ X) = unroot rooted (rev out) ++ X.
Proof.
  intros Hf. destruct rooted; [|done].
  destruct (buffer_form_rev_rooted _ _ Hf) as [t ->]. done.
Qed.

Lemma real_element_not_slash e : real_element e → is_rooted e = false ∧ ∃ n, length e = S n.
Proof.
  intros (Hne & Hs & _). destruct e as [|c e]; [done|].
  apply not_elem_of_cons in Hs as [Hc _]. split; [|by exists (length e)]. cbn.
  destruct (Ascii.eqb c slash) eqn:E; [apply Ascii.eqb_eq in E; congruence|done].
Qed.

(** The loop, on the path a buffer spells out and then on [q], comes to
    [q] with that buffer. *)
Lemma clean_loop_reread rooted out dd :
  buffer_form rooted out dd →
  ∀ q fuel,
    ends_element q = true ∨ unroot rooted (rev out) = [] →
    length (unroot rooted (rev out) ++ q) ≤ fuel →
    clean_loop fuel rooted (unroot rooted (rev out) ++ q)
      (if rooted then [slash] else []) (if rooted then 1 else 0)
    = clean_loop (length q) rooted q out dd.
Proof.
  induction 1 as [|out dd Hr Hf IH Hlen|out dd e Hf IH He]; intros q fuel Hq Hfuel.
  - assert (E : unroot rooted (rev (if rooted then [slash] else [])) = [])
      by (by destruct rooted).
    rewrite E in *. cbn [app] in *. by apply clean_loop_fuel.
  - subst rooted. cbn [unroot] in *.
    destruct Hq as [Hq|Hq]; [|by cbn [rev] in Hq; apply app_eq_nil in Hq as [_ ?]].
    assert (Hstep : ∀ fuel' o, length o = dd → length q ≤ fuel' →
      clean_loop (S fuel') false (dot :: dot :: q) o dd =
      clean_loop (length q) false q (dot :: dot :: with_separator false o)
        (length (dot :: dot :: with_separator false o))).
    { intros fuel' o Ho Hf'. cbn [clean_loop tail]. rewrite Hq.
      replace (Ascii.eqb dot slash) with false by done.
      replace (Ascii.eqb dot dot) with true by done. cbn [andb negb].
      replace (dd <? length o) with false by (symmetry; apply Nat.ltb_ge; lia).
      rewrite with_separator_unrooted. apply clean_loop_fuel; lia. }
    destruct (with_separator_cases _ _ _ Hf) as [Hs|(Hs & _ & ->)].
    + rewrite Hs in Hfuel |- *. cbn [rev] in Hfuel |- *.
      rewrite <- !app_assoc in Hfuel |- *. cbn [app] in Hfuel |- *.
      rewrite IH; [|by left|done]. cbn [length]. rewrite clean_loop_slash.
      rewrite Hstep by (done || lia). by rewrite Hs.
    + cbn [rev app with_separator] in Hfuel |- *. cbn in Hlen. subst dd.
      destruct fuel as [|fuel]; [cbn in Hfuel; lia|].
      apply Hstep; [done|]. cbn in Hfuel. lia.
  - destruct (real_element_not_slash _ He) as [_ [n Hn]].
    assert (Hq' : ends_element q = true).
    { destruct Hq as [Hq|Hq]; [done|]. exfalso.
      destruct (with_separator_cases _ _ _ Hf) as [Hs|(Hs & _ & Ho)]; rewrite Hs in Hq.
      - rewrite rev_app_distr, rev_involutive in Hq. cbn [rev] in Hq.
        rewrite <- !app_assoc in Hq. rewrite (unroot_app _ _ _ _ Hf) in Hq.
        by destruct (unroot rooted (rev out)).
      - rewrite rev_app_distr, rev_involutive in Hq. subst out.
        destruct rooted, e; done. }
    rewrite rev_app_distr, rev_involutive in Hfuel |- *.
    destruct (with_separator_cases _ _ _ Hf) as [Hs|(Hs & Hlen & Ho)].
    + rewrite Hs in Hfuel |- *. cbn [rev] in Hfuel |- *.
      rewrite <- !app_assoc in Hfuel |- *. cbn [app] in Hfuel |- *.
      rewrite (unroot_app _ _ _ _ Hf) in Hfuel |- *.
      rewrite <- !app_assoc in Hfuel |- *. cbn [app] in Hfuel |- *.
      rewrite IH; [|by left|done]. cbn [length]. rewrite clean_loop_slash.
      rewrite length_app, Hn. cbn [Nat.add]. rewrite clean_loop_real by done.
      rewrite Hs. apply clean_loop_fuel; lia.
    + rewrite Hs in Hfuel |- *.
      assert (E : unroot rooted (rev out ++ e) = e) by (subst out; by destruct rooted).
      rewrite E in Hfuel |- *.
      assert (Hdd : dd = if rooted then 1 else 0) by (subst out; destruct rooted; done).
      rewrite <- Hdd. rewrite <- Ho.
      rewrite length_app, Hn in Hfuel. destruct fuel as [|fuel]; [cbn in Hfuel; lia|].
      rewrite clean_loop_real by done. rewrite Hs. apply clean_loop_fuel; cbn in Hfuel; lia.
Qed.

Lemma buffer_form_unrooted_head out dd :
  buffer_form false out dd → out ≠ [] → is_rooted (rev out) = false.
Proof.
  induction 1 as [|out dd _ Hf IH Hlen|out dd e Hf IH He]; intros Hne; [done| |].
  - destruct out as [|c out]; [done|].
    change (with_separator false (c :: out)) with (slash :: c :: out).
    cbn [rev] in *. rewrite <- !app_assoc.
    specialize (IH ltac:(done)). by destruct (rev out).
  - rewrite rev_app_distr, rev_involutive.
    destruct (real_element_not_slash _ He) as [Hr _].
    destruct out as [|c out]; [by destruct e|].
    change (with_separator false (c :: out)) with (slash :: c :: out).
    cbn [rev] in *. rewrite <- !app_assoc.
    specialize (IH ltac:(done)). by destruct (rev out).
Qed.

(** What [Clean] returns is spelled out by a buffer in form. *)
Lemma Clean_form x :
  x ≠ [] → ∃ out dd, buffer_form (is_rooted x) out dd ∧ Clean x = out_string out.
Proof.
  destruct x as [|c x]; [done|]. intros _. cbn [is_rooted Clean].
  destruct (Ascii.eqb c slash).
  - destruct (clean_loop_form (length (c :: x)) true x [slash] 1 (bf_init true)) as [dd Hf].
    eauto.
  - destruct (clean_loop_form (length (c :: x)) false (c :: x) [] 0 (bf_init false))
      as [dd Hf]. eauto.
Qed.

(** [Clean], on a cleaned path other than [.] and then on [q], reads [q]
    with the buffer that spells the cleaned path. *)
Lemma Clean_reread x q :
  x ≠ [] → Clean x ≠ str "." → ends_element q = true →
  ∃ out dd,
    buffer_form (is_rooted x) out dd ∧ out ≠ [] ∧ Clean x = rev out ∧
    Clean (Clean x ++ q) = out_string (clean_loop (length q) (is_rooted x) q out dd).
Proof.
  intros Hx Hdot Hq. destruct (Clean_form x Hx) as (out & dd & Hf & Hc).
  assert (Hne : out ≠ []) by (intros ->; by rewrite Hc in Hdot).
  assert (Hrev : Clean x = rev out) by (rewrite Hc; by destruct out).
  exists out, dd. split_and!; [done|done|done|]. rewrite Hrev.
  pose proof (clean_loop_reread _ _ _ Hf q) as Hread.
  destruct (is_rooted x) eqn:Hr.
  - destruct (buffer_form_rev_rooted _ _ Hf) as [t Ht]. rewrite Ht in *.
    cbn [app Clean unroot tail] in *. rewrite Ascii.eqb_refl.
    rewrite Hread; [done|by left|cbn; lia].
  - pose proof (buffer_form_unrooted_head _ _ Hf Hne) as Hh.
    destruct (rev out) as [|c t] eqn:Ht.
    { apply (f_equal (@rev ascii)) in Ht. by rewrite rev_involutive in Ht. }
    cbn [is_rooted] in Hh. cbn [app Clean unroot] in *. rewrite Hh.
    rewrite Hread; [done|by left|done].
Qed.

(** Cleaning a cleaned path changes nothing. *)
Lemma Clean_idempotent x : Clean (Clean x) = Clean x.
Proof.
  destruct x as [|c x]; [done|].
  destruct (streq (Clean (c :: x)) ".") eqn:Edot.
  - apply streq_true in Edot. by rewrite Edot.
  - apply streq_false in Edot.
    destruct (Clean_reread (c :: x) [] ltac:(done) Edot eq_refl)
      as (out & dd & Hf & Hne & Hrev & Hc).
    rewrite app_nil_r in Hc. rewrite Hc, Hrev. cbn [length clean_loop].
    by destruct out.
Qed.

Lemma clean_loop_slashes fuel rooted n e out dd :
  real_element e → n + length e ≤ fuel →
  clean_loop fuel rooted (repeat slash n ++ e) out dd = rev e ++ with_separator rooted out.
Proof.
  revert fuel. induction n as [|n IH]; intros fuel He Hfuel.
  - by apply clean_loop_last.
  - destruct fuel as [|fuel]; [lia|]. cbn [repeat app]. rewrite clean_loop_slash.
    apply IH; [done|lia].
Qed.

(** A real element joined under a cleaned path, with any number of
    separators between them: the element is put after the path and one
    separator, but for the paths [.] and [/]. *)
Lemma Clean_then_element x n e :
  x ≠ [] → real_element e →
  Clean (Clean x ++ repeat slash (S n) ++ e) =
  if streq (Clean x) "." then e
  else if streq (Clean x) "/" then slash :: e
  else Clean x ++ slash :: e.
Proof.
  intros Hx He. destruct (streq (Clean x) ".") eqn:Edot.
  - apply streq_true in Edot as ->.
    change (str "." ++ repeat slash (S n) ++ e) with (dot :: slash :: repeat slash n ++ e).
    unfold Clean. replace (Ascii.eqb dot slash) with false by done.
    cbn [length clean_loop ends_element]. rewrite Ascii.eqb_refl.
    replace (Ascii.eqb dot slash) with false by done.
    replace (Ascii.eqb dot dot) with true by done. cbn [andb].
    rewrite clean_loop_slashes; [|done|rewrite length_app, repeat_length; lia].
    change (with_separator false []) with (@nil ascii).
    rewrite out_string_app by apply He. done.
  - apply streq_false in Edot.
    destruct (Clean_reread x (repeat slash (S n) ++ e) Hx Edot eq_refl)
      as (out & dd & Hf & Hne & Hrev & ->).
    rewrite clean_loop_slashes; [|done|rewrite length_app, repeat_length; lia].
    rewrite out_string_app by apply He. rewrite Hrev.
    destruct (streq (rev out) "/") eqn:Eroot.
    + apply streq_true in Eroot.
      assert (Ho : out = [slash]).
      { apply (f_equal (@rev ascii)) in Eroot. by rewrite rev_involutive in Eroot. }
      subst out. destruct (is_rooted x); [done|].
      by pose proof (buffer_form_unrooted_head _ _ Hf Hne).
    + apply streq_false in Eroot.
      destruct (with_separator_cases _ _ _ Hf) as [->|(_ & _ & ->)].
      * cbn [rev]. by rewrite <- app_assoc.
      * by destruct (is_rooted x).
Qed.

End path_facts.

(** ** [strings.HasSuffix], [path.Join], and the digest *)

(** [HasSuffix] says what it is named for. *)
Lemma HasSuffix_spec s t : strings.HasSuffix s t = true ↔ ∃ pre, s = pre ++ t.
Proof.
  unfold strings.HasSuffix. rewrite andb_true_iff, Nat.leb_le, streq_true. split.
  - intros [Hlen Hd]. exists (take (length s - length t) s).
    transitivity (take (length s - length t) s ++ drop (length s - length t) s).
    + by rewrite take_drop.
    + by rewrite Hd.
  - intros [pre ->]. rewrite length_app. split; [lia|].
    replace (length pre + length t - length t) with (length pre) by lia.
    by rewrite drop_app_length.
Qed.

Lemma join_append_nil e : path.join_append [] e = e.
Proof.
  unfold path.join_append. cbn. destruct (streq e []) eqn:E; [|done].
  by apply streq_true in E.
Qed.

Lemma join_append_cons c buf e :
  path.join_append (c :: buf) e = (c :: buf) ++ slash :: e.
Proof. unfold path.join_append. cbn. by rewrite <- app_assoc. Qed.

Lemma Join_size_nonzero (elem : list gostring) (e : gostring) :
  e ∈ elem → e ≠ [] → (fold_left (λ n e, n + length e) elem 0 =? 0) = false.
Proof.
  intros Hin He. apply Nat.eqb_neq.
  assert (Hmono : ∀ l n, n ≤ fold_left (λ n (e : gostring), n + length e) l n).
  { induction l as [|x l IH]; intros n; cbn; [lia|]. specialize (IH (n + length x)). lia. }
  assert (Hlt : ∀ n, e ∈ elem → n < fold_left (λ n (e : gostring), n + length e) elem n).
  { clear Hin. induction elem as [|x elem IH]; intros n Hin'.
    - by apply elem_of_nil in Hin'.
    - cbn. apply elem_of_cons in Hin' as [<-|Hin'].
      + specialize (Hmono elem (n + length e)). destruct e; [done|cbn in *; lia].
      + specialize (IH (n + length x) Hin'). lia. }
  specialize (Hlt 0 Hin). lia.
Qed.

Lemma Join_two a b :
  a ≠ [] → b ≠ [] → path.Join [a; b] = path.Clean (a ++ slash :: b).
Proof.
  intros Ha Hb. unfold path.Join.
  rewrite (Join_size_nonzero _ a) by (done || set_solver).
  cbn [fold_left]. rewrite join_append_nil.
  destruct a as [|c a]; [done|]. by rewrite join_append_cons.
Qed.

(** [Join(key, "/", segment)]: three separators come between the two,
    or two in front of the segment when the key is empty. *)
Lemma Join_under key seg :
  seg ≠ [] →
  path.Join [key; str "/"; seg] =
  path.Clean ((if key is [] then [slash] else key ++ [slash; slash]) ++ slash :: seg).
Proof.
  intros Hseg. unfold path.Join.
  rewrite (Join_size_nonzero _ seg) by (done || set_solver).
  cbn [fold_left]. rewrite join_append_nil.
  destruct key as [|c key].
  - rewrite join_append_nil. change (str "/") with [slash]. by rewrite join_append_cons.
  - rewrite join_append_cons. cbn [app]. rewrite join_append_cons.
    change (str "/") with [slash]. cbn [app]. by rewrite <- !app_assoc.
Qed.

Lemma checkSum_length d : length (sha1.checkSum d) = sha1.Size.
Proof.
  unfold sha1.checkSum.
  destruct (sha1.h (sha1.Write d _)) as [[[[h0 h1] h2] h3] h4]. reflexivity.
Qed.

Lemma EncodeToString_length src : length (hex.EncodeToString src) = 2 * length src.
Proof.
  unfold hex.EncodeToString. induction src as [|v src IH]; [done|].
  cbn [flat_map length app]. rewrite IH. lia.
Qed.

Lemma EncodeToString_lower_hex src : Forall lower_hex (hex.EncodeToString src).
Proof.
  assert (Hnth : ∀ i, i < 16 → lower_hex (nth i hex.hextable zero)).
  { intros i Hi. unfold lower_hex. apply list_elem_of_In, nth_In. exact Hi. }
  unfold hex.EncodeToString. induction src as [|v src IH]; [constructor|].
  cbn [flat_map app].
  assert (Hv : N.to_nat (N_of_ascii v) < 256).
  { pose proof (N_ascii_bounded v). lia. }
  constructor; [|constructor; [|done]]; apply Hnth.
  - apply Nat.Div0.div_lt_upper_bound. lia.
  - apply Nat.mod_upper_bound. lia.
Qed.

(** The segment [convertSha1] makes: forty lowercase hexadecimal digits. *)
Lemma convertSha1_length input : length (convertSha1 input) = 40.
Proof.
  unfold convertSha1, sha1.Sum. rewrite EncodeToString_length. cbn [app].
  by rewrite checkSum_length.
Qed.

Lemma convertSha1_lower_hex input : Forall lower_hex (convertSha1 input).
Proof. apply EncodeToString_lower_hex. Qed.

Lemma convertSha1_real input : real_element (convertSha1 input).
Proof.
  pose proof (convertSha1_length input) as Hl.
  pose proof (convertSha1_lower_hex input) as Hh.
  repeat split.
  - intros E. by rewrite E in Hl.
  - intros Hs. rewrite Forall_forall in Hh. apply Hh in Hs.
    assert (Hno : slash ∉ hex.hextable) by (by apply (bool_decide_unpack _)).
    by apply Hno.
  - intros E. by rewrite E in Hl.
  - intros E. by rewrite E in Hl.
Qed.

Lemma defaultIndex_real : real_element defaultIndex.
Proof.
  repeat split; try done. by apply (bool_decide_unpack _).
Qed.

(** ** The key builder *)

Lemma Join_empty_first b : b ≠ [] → path.Join [[]; b] = path.Clean b.
Proof.
  intros Hb. unfold path.Join.
  rewrite (Join_size_nonzero _ b) by (done || set_solver).
  cbn [fold_left]. by rewrite !join_append_nil.
Qed.

(** On a path that ends with a separator, [joinPath] returns, and puts
    the separator back unless the joined path is the separator alone. *)
Lemma joinPath_dir root urlPath :
  strings.HasSuffix urlPath "/" = true →
  joinPath root urlPath =
  Returned (if streq (path.Join [root; urlPath]) "/" then str "/"
            else path.Join [root; urlPath] ++ "/").
Proof.
  intros [pre ->]%HasSuffix_spec. unfold joinPath.
  change (str "/") with [slash]. rewrite length_app. cbn [length]. rewrite Nat.add_1_r.
  rewrite drop_app_length, streq_refl. cbn [andb].
  destruct (streq _ [slash]) eqn:E; [|done].
  apply streq_true in E. by rewrite E.
Qed.

Lemma joinPath_dir_HasSuffix root urlPath fullPath :
  strings.HasSuffix urlPath "/" = true →
  joinPath root urlPath = Returned fullPath →
  strings.HasSuffix fullPath "/" = true ∧ fullPath ≠ [].
Proof.
  intros Hdir. rewrite (joinPath_dir _ _ Hdir). intros [= <-].
  destruct (streq _ _); [done|]. split.
  - apply HasSuffix_spec. eauto.
  - by destruct (path.Join _).
Qed.

Lemma joinPath_dir_rooted root urlPath fullPath :
  strings.HasSuffix urlPath "/" = true →
  joinPath root urlPath = Returned fullPath →
  is_rooted root = true ∨ (root = [] ∧ is_rooted urlPath = true) →
  is_rooted fullPath = true.
Proof.
  intros Hdir. rewrite (joinPath_dir _ _ Hdir). intros [= <-] Hroot.
  destruct (streq _ _); [done|].
  assert (Hu : urlPath ≠ []).
  { apply HasSuffix_spec in Hdir as [pre ->]. by destruct pre. }
  assert (Hj : is_rooted (path.Join [root; urlPath]) = true).
  { destruct Hroot as [Hr|[-> Hr]].
    - rewrite Join_two; [|by destruct root|done].
      apply Clean_rooted. by destruct root.
    - rewrite Join_empty_first by done. by apply Clean_rooted. }
  by destruct (path.Join _).
Qed.

(** The key of a directory path without a query. *)
Lemma s3Key_dir fullPath :
  strings.HasSuffix fullPath "/" = true → fullPath ≠ [] →
  s3Key fullPath "" = path.Clean (fullPath ++ slash :: defaultIndex).
Proof.
  intros Hs Hne. unfold s3Key. rewrite Hs. cbn [length Nat.ltb Nat.leb str list_ascii_of_string].
  by apply Join_two.
Qed.

(** C8.  For every non-empty query the key ends with a path segment
    that is the lowercase hexadecimal form, forty digits long, of the
    twenty bytes of the SHA-1 digest of the query; the segment is the whole
    key or follows a separator.  It is a function of the query alone.  Root
    [/site], path [/page] and query [a=1] give [/site/page/] followed by
    the digest of [a=1]. *)
Theorem s3Key_query_segment (fullPath rawQuery : gostring) :
  rawQuery ≠ [] →
  let digest := sha1.Sum (sha1.Write sha1.New rawQuery) [] in
  let segment := convertSha1 rawQuery in
  length digest = 20 ∧
  segment = hex.EncodeToString digest ∧
  length segment = 40 ∧
  Forall lower_hex segment ∧
  (s3Key fullPath rawQuery = segment ∨
   strings.HasSuffix (s3Key fullPath rawQuery) (slash :: segment) = true) ∧
  joinPath "/site" "/page" = Returned (str "/site/page") ∧
  s3Key "/site/page" "a=1" = str "/site/page/" ++ convertSha1 "a=1" ∧
  convertSha1 "a=1" = str "86eda770a6060824b090dd4df091e3bd4121279c".
Proof.
  intros Hq digest segment. split_and!.
  - unfold digest, sha1.Sum. cbn [app]. apply checkSum_length.
  - done.
  - apply convertSha1_length.
  - apply convertSha1_lower_hex.
  - subst segment. unfold s3Key. replace (0 <? length rawQuery) with true
      by (destruct rawQuery; [done|reflexivity]).
    rewrite Join_under by apply convertSha1_real.
    match goal with |- context [path.Clean (?p ++ _)] =>
      destruct (Clean_last_element p _ (convertSha1_real rawQuery)) as [[_ ->]|[pre ->]] end.
    + by left.
    + right. apply HasSuffix_spec. eauto.
  - by vm_compute.
  - by vm_compute.
  - by vm_compute.
Qed.

(** C8, at the query [a=1] and the path [/site/page]. *)
Lemma s3Key_query_segment_witness :
  str "a=1" ≠ [] ∧
  strings.HasSuffix (s3Key "/site/page" "a=1") (slash :: convertSha1 "a=1") = true.
Proof.
  assert (Hq : str "a=1" ≠ []) by done.
  split; [exact Hq|].
  destruct (s3Key_query_segment "/site/page" "a=1" Hq) as (_ & _ & _ & _ & [H|H] & _).
  - exfalso. revert H. by vm_compute.
  - exact H.
Defined.

(** C7, as the claim states it, fails: with the root [site] and the path
    [/../] the joined path is [.], [joinPath] returns [./], and the key is
    [index.html], which does not end in [/index.html]. *)
Lemma s3Key_dir_unrooted_counterexample :
  strings.HasSuffix "/../" "/" = true ∧
  joinPath "site" "/../" = Returned (str "./") ∧
  s3Key "./" "" = str "index.html" ∧
  strings.HasSuffix (s3Key "./" "") "/index.html" = false.
Proof. by vm_compute. Qed.

(** [Join] of a root and a path that is not empty cleans a path that is
    not empty. *)
Lemma Join_root_Clean root urlPath :
  urlPath ≠ [] → ∃ y, y ≠ [] ∧ path.Join [root; urlPath] = path.Clean y.
Proof.
  intros Hu. destruct root as [|c root].
  - exists urlPath. split; [done|]. by apply Join_empty_first.
  - exists ((c :: root) ++ slash :: urlPath). split; [done|]. by apply Join_two.
Qed.

(** C7, amended.  For every path that ends with a separator, [joinPath]
    returns the joined path with a separator put back at its end, or the
    joined path itself when that is [/]; without a query the key is the
    default document joined under it: the joined path followed by
    [/index.html], or [/index.html] when the joined path is [/], or
    [index.html] alone when the joined path is [.].  So the key ends in
    [/index.html] unless the joined path is [.], and it does whenever the
    root begins with a separator, or is empty under a path that begins with
    one.  Root [/site] and path [/images/] give [/site/images/index.html]. *)
Theorem s3Key_dir_index (root urlPath : gostring) :
  strings.HasSuffix urlPath "/" = true →
  let newPath := path.Join [root; urlPath] in
  ∃ fullPath,
    joinPath root urlPath = Returned fullPath ∧
    fullPath = (if streq newPath "/" then str "/" else newPath ++ "/") ∧
    strings.HasSuffix fullPath "/" = true ∧
    s3Key fullPath "" = path.Join [fullPath; defaultIndex] ∧
    s3Key fullPath "" =
      (if streq newPath "." then str "index.html"
       else if streq newPath "/" then str "/index.html"
       else newPath ++ "/index.html") ∧
    (newPath ≠ str "." → strings.HasSuffix (s3Key fullPath "") "/index.html" = true) ∧
    (is_rooted root = true ∨ (root = [] ∧ is_rooted urlPath = true) →
     strings.HasSuffix (s3Key fullPath "") "/index.html" = true) ∧
    joinPath "/site" "/images/" = Returned (str "/site/images/") ∧
    s3Key "/site/images/" "" = str "/site/images/index.html".
Proof.
  intros Hdir newPath. eexists. split; [by apply joinPath_dir|].
  pose proof (joinPath_dir root urlPath Hdir) as Hj. fold newPath in Hj |- *.
  destruct (joinPath_dir_HasSuffix _ _ _ Hdir Hj) as [Hs Hne].
  assert (Hu : urlPath ≠ []).
  { apply HasSuffix_spec in Hdir as [pre ->]. by destruct pre. }
  destruct (Join_root_Clean root urlPath Hu) as (y & Hy & HN). fold newPath in HN.
  assert (Hkey : s3Key (if streq newPath "/" then str "/" else newPath ++ "/") "" =
    (if streq newPath "." then str "index.html"
     else if streq newPath "/" then str "/index.html"
     else newPath ++ "/index.html")).
  { rewrite s3Key_dir by done.
    destruct (streq newPath "/") eqn:Eroot.
    - apply streq_true in Eroot. rewrite Eroot. by vm_compute.
    - pose proof (Clean_then_element y 1 defaultIndex Hy defaultIndex_real) as H.
      rewrite <- HN, Eroot in H. rewrite <- app_assoc. exact H. }
  split_and!.
  - done.
  - done.
  - unfold s3Key. by rewrite Hs.
  - done.
  - intros Hdot. rewrite Hkey. apply streq_false in Hdot. rewrite Hdot.
    apply HasSuffix_spec. destruct (streq newPath "/"); [by exists []|by exists newPath].
  - intros Hroot. rewrite Hkey.
    pose proof (joinPath_dir_rooted _ _ _ Hdir Hj Hroot) as Hr.
    destruct (streq newPath ".") eqn:Edot.
    + apply streq_true in Edot. rewrite Edot in Hr. done.
    + apply HasSuffix_spec. destruct (streq newPath "/"); [by exists []|by exists newPath].
  - by vm_compute.
  - by vm_compute.
Qed.

(** C7 amended, at the root [/site] and the path [/images/]. *)
Lemma s3Key_dir_index_witness :
  strings.HasSuffix "/images/" "/" = true ∧
  ∃ fullPath,
    joinPath "/site" "/images/" = Returned fullPath ∧
    strings.HasSuffix (s3Key fullPath "") "/index.html" = true.
Proof.
  assert (Hdir : strings.HasSuffix "/images/" "/" = true) by reflexivity.
  split; [exact Hdir|].
  destruct (s3Key_dir_index "/site" "/images/" Hdir)
    as (fullPath & Hj & _ & _ & _ & _ & _ & Hr & _).
  exists fullPath. split; [exact Hj|]. apply Hr. left. reflexivity.
Defined.

(** C1, as the claim states it, fails: for the root [/site], the path
    [/images/] and the query [a=1] the key has the default document in it,
    with the digest under it; appending the digest first would give
    another key. *)
Lemma s3Key_dir_query_counterexample :
  strings.HasSuffix "/images/" "/" = true ∧
  joinPath "/site" "/images/" = Returned (str "/site/images/") ∧
  s3Key "/site/images/" "a=1" =
    str "/site/images/index.html/86eda770a6060824b090dd4df091e3bd4121279c" ∧
  s3Key_digest_first "/site/images/" "a=1" =
    str "/site/images/86eda770a6060824b090dd4df091e3bd4121279c" ∧
  path.Join [path.Join [str "/site"; str "/images/"]; convertSha1 "a=1"] =
    str "/site/images/86eda770a6060824b090dd4df091e3bd4121279c".
Proof. by vm_compute. Qed.

(** C1, amended.  For every path that ends with a separator and every
    non-empty query, the default document is joined under the joined path
    first and the digest of the query under that: the key is the key of
    the same path without a query, a separator, and the digest; so it is
    [index.html/digest] or ends in [/index.html/digest]. *)
Theorem s3Key_dir_query (root urlPath rawQuery : gostring) :
  strings.HasSuffix urlPath "/" = true →
  rawQuery ≠ [] →
  ∃ fullPath,
    joinPath root urlPath = Returned fullPath ∧
    s3Key fullPath rawQuery =
      path.Join [path.Join [fullPath; defaultIndex]; str "/"; convertSha1 rawQuery] ∧
    s3Key fullPath rawQuery = s3Key fullPath "" ++ slash :: convertSha1 rawQuery ∧
    (s3Key fullPath rawQuery = defaultIndex ++ slash :: convertSha1 rawQuery ∨
     strings.HasSuffix (s3Key fullPath rawQuery)
       (slash :: defaultIndex ++ slash :: convertSha1 rawQuery) = true).
Proof.
  intros Hdir Hq. eexists. split; [by apply joinPath_dir|].
  pose proof (joinPath_dir root urlPath Hdir) as Hj.
  destruct (joinPath_dir_HasSuffix _ _ _ Hdir Hj) as [Hs Hne].
  set (fullPath := if streq _ _ then _ else _) in *.
  assert (Hkey : s3Key fullPath rawQuery =
    path.Join [path.Join [fullPath; defaultIndex]; str "/"; convertSha1 rawQuery]).
  { unfold s3Key. rewrite Hs. by destruct rawQuery. }
  assert (Hform : ∃ p, (p = [] ∨ ∃ p', p = p' ++ [slash]) ∧
    path.Clean (fullPath ++ slash :: defaultIndex) = p ++ defaultIndex).
  { destruct (Clean_last_element fullPath defaultIndex defaultIndex_real) as [[_ ->]|[pre ->]].
    - exists []. split; [by left|done].
    - exists (pre ++ [slash]). split; [right; eauto|]. by rewrite <- app_assoc. }
  destruct Hform as (p & Hp & Hk1).
  assert (Hunder : s3Key fullPath rawQuery = s3Key fullPath "" ++ slash :: convertSha1 rawQuery).
  { rewrite Hkey, s3Key_dir by done. rewrite Join_two by done.
    rewrite Join_under by apply convertSha1_real.
    assert (Hx : fullPath ++ slash :: defaultIndex ≠ []) by (by destruct fullPath).
    pose proof (Clean_then_element _ 2 _ Hx (convertSha1_real rawQuery)) as H.
    assert (Hnot : ∀ t, length t = 1 → path.Clean (fullPath ++ slash :: defaultIndex) ≠ t).
    { intros t Ht E. rewrite Hk1 in E. apply (f_equal length) in E.
      rewrite length_app, Ht in E. cbn in E. lia. }
    rewrite (proj2 (streq_false _ _) (Hnot "." eq_refl)) in H.
    rewrite (proj2 (streq_false _ _) (Hnot "/" eq_refl)) in H.
    rewrite <- H. f_equal.
    destruct (path.Clean (fullPath ++ slash :: defaultIndex)) eqn:E.
    - rewrite Hk1 in E. by destruct p.
    - cbn [repeat]. by rewrite <- !app_assoc. }
  split_and!; [done|done|].
  rewrite Hunder, s3Key_dir, Hk1 by done.
  destruct Hp as [->|[p' ->]].
  - by left.
  - right. apply HasSuffix_spec. exists p'. by rewrite <- !app_assoc.
Qed.

(** C1 amended, at the root [/site], the path [/images/] and the query
    [a=1]. *)
Lemma s3Key_dir_query_witness :
  strings.HasSuffix "/images/" "/" = true ∧ str "a=1" ≠ [] ∧
  ∃ fullPath,
    joinPath "/site" "/images/" = Returned fullPath ∧
    s3Key fullPath "a=1" =
      path.Join [path.Join [fullPath; defaultIndex]; str "/"; convertSha1 "a=1"].
Proof.
  assert (Hdir : strings.HasSuffix "/images/" "/" = true) by reflexivity.
  assert (Hq : str "a=1" ≠ []) by done.
  split; [exact Hdir|]. split; [exact Hq|].
  destruct (s3Key_dir_query "/site" "/images/" "a=1" Hdir Hq) as (fullPath & Hj & Hk & _).
  exists fullPath. split; [exact Hj|exact Hk].
Defined.

(** ** The request dispatcher *)

(* Unfolding the functions of the handler, by name. *)
Ltac open_header := unfold Header_Get, Header_Set, Header_Del.
Ltac open_input := unfold getObjectInput.
Ltac open_set := unfold setStrHeader, setTimeHeader.
Ltac open_fetch := unfold getS3Object.
Ltac open_response := unfold writeResponseFromGetObject.
Ltac open_handler := unfold GetHandler.

Section handler_facts.

Context (CanonicalMIMEHeaderKey : gostring → gostring).
Context (time_Parse : gostring → gostring → Time * option error).
Context (time_UTC_Format : Time → gostring → gostring).

Local Abbreviation Header_Get := (Header_Get CanonicalMIMEHeaderKey).
Local Abbreviation Header_Set := (Header_Set CanonicalMIMEHeaderKey).
Local Abbreviation Header_Del := (Header_Del CanonicalMIMEHeaderKey).
Local Abbreviation setStrHeader := (setStrHeader CanonicalMIMEHeaderKey).
Local Abbreviation setMetadataHeaders := (setMetadataHeaders CanonicalMIMEHeaderKey).
Local Abbreviation getObjectInput := (getObjectInput CanonicalMIMEHeaderKey time_Parse).
Local Abbreviation getS3Object := (getS3Object CanonicalMIMEHeaderKey time_Parse).
Local Abbreviation writeResponseFromGetObject :=
  (writeResponseFromGetObject CanonicalMIMEHeaderKey time_UTC_Format).
Local Abbreviation GetHandler := (GetHandler CanonicalMIMEHeaderKey time_Parse time_UTC_Format).
Local Abbreviation ServeHTTP := (ServeHTTP CanonicalMIMEHeaderKey time_Parse time_UTC_Format).

(* Unfolds the function at the head of the left-hand side. *)
Ltac head_of t :=
  lazymatch t with
  | ?f _ => head_of f
  | _ => t
  end.
Ltac open_lhs :=
  lazymatch goal with
  | |- ?l = _ => let f := head_of l in unfold f
  end.

(* Unfolds the sequencing of [M]. *)
Ltac run :=
  cbv [mbind M_bind mret M_ret on_writer emit call_GetObject call_next
       call_io_Copy lift panic resp trace].

(** What delegating to the next handler leaves: its error, its writer, and
    one more call in the trace. *)
Lemma call_next_eq next r σ :
  call_next next r σ =
  Returned (snd (next (resp σ) r),
            {| resp := fst (next (resp σ) r); trace := trace σ ++ [CallNext] |}).
Proof. unfold call_next. by destruct (next (resp σ) r). Qed.

(** C4.  A request whose method is not GET is handed to the next handler
    with the response writer as it came; the handler's only call is that
    one, so it makes no storage call, and it reads neither the replacer nor
    the path, from which the key would be built. *)
Theorem ServeHTTP_not_GET (p : S3Proxy) (r : http.Request) (next : Handler) (σ : World) :
  http.Method r ≠ http.MethodGet →
  ServeHTTP p r next σ =
  Returned (snd (next (resp σ) r),
            {| resp := fst (next (resp σ) r); trace := trace σ ++ [CallNext] |}).
Proof.
  intros Hm. open_lhs.
  apply streq_false in Hm. rewrite Hm. cbn [negb]. apply call_next_eq.
Qed.

(** A GET request whose path is not empty: the key is built, the
    object is fetched, and the request is delegated when that gave an
    error. *)
Lemma ServeHTTP_GET p r next σ repl fullPath :
  http.Method r = http.MethodGet →
  http.Replacer r = Some repl →
  joinPath (repl (Root p) "") (http.URL_Path r) = Returned fullPath →
  ServeHTTP p r next σ =
  match GetHandler p r fullPath σ with
  | Returned (None, σ') => Returned (None, σ')
  | Returned (Some _, σ') => call_next next r σ'
  | Panicked reason => Panicked reason
  end.
Proof.
  intros Hm Hr Hj. open_lhs. rewrite Hm, streq_refl, Hr. cbn [negb].
  run. rewrite Hj.
  by destruct (GetHandler p r fullPath σ) as [[[e|] σ']|].
Qed.

(** *** The fetch *)

Lemma getS3Object_error p bucket key r σ obj e :
  client p (getObjectInput bucket key r) = (obj, Some e) →
  (∀ message, e ≠ awserr_Error "NotModified" message) →
  getS3Object p bucket key r σ =
  Returned ((obj, Some e),
            {| resp := resp σ;
               trace := trace σ ++ [CallGetObject (getObjectInput bucket key r)] |}).
Proof.
  intros Hc Hne. open_lhs. run. rewrite Hc.
  destruct e as [code message|text]; [|done].
  destruct (streq code "NotModified") eqn:E.
  - apply streq_true in E as ->. by destruct (Hne message).
  - by destruct (streq code "NoSuchKey").
Qed.

Lemma getS3Object_NotModified p bucket key r σ obj message :
  client p (getObjectInput bucket key r) = (obj, Some (awserr_Error "NotModified" message)) →
  getS3Object p bucket key r σ =
  Returned ((obj, None),
            {| resp := http.WriteHeader (resp σ) 304;
               trace := trace σ ++ [CallGetObject (getObjectInput bucket key r)] |}).
Proof. intros Hc. open_lhs. run. by rewrite Hc. Qed.

Lemma getS3Object_empty p bucket key r σ o :
  client p (getObjectInput bucket key r) = (Some o, None) →
  s3.ContentLength o = Some 0%Z →
  getS3Object p bucket key r σ =
  Returned ((Some o, Some (errors_New "ContentLength is empty - cache is ")),
            {| resp := resp σ;
               trace := trace σ ++ [CallGetObject (getObjectInput bucket key r)] |}).
Proof. intros Hc Hl. open_lhs. run. by rewrite Hc, Hl. Qed.

Lemma GetHandler_error p r fullPath σ obj e σ' :
  getS3Object p (Bucket p) (s3Key fullPath (http.URL_RawQuery r)) r σ
    = Returned ((obj, Some e), σ') →
  GetHandler p r fullPath σ = Returned (Some e, σ').
Proof. intros Hg. open_lhs. run. by rewrite Hg. Qed.

(** C5.  When the storage client reports [NoSuchKey], the handler has
    made its one storage call and hands the request to the next handler
    with the response writer as it came: no header set, no status
    written. *)
Theorem ServeHTTP_NoSuchKey (p : S3Proxy) (r : http.Request) (next : Handler) (σ : World)
    (repl : gostring → gostring → gostring) (fullPath : gostring)
    (obj : option s3.GetObjectOutput) (message : gostring) :
  http.Method r = http.MethodGet →
  http.Replacer r = Some repl →
  joinPath (repl (Root p) "") (http.URL_Path r) = Returned fullPath →
  client p (getObjectInput (Bucket p) (s3Key fullPath (http.URL_RawQuery r)) r)
    = (obj, Some (awserr_Error "NoSuchKey" message)) →
  ServeHTTP p r next σ =
  Returned (snd (next (resp σ) r),
            {| resp := fst (next (resp σ) r);
               trace := trace σ ++
                 [CallGetObject (getObjectInput (Bucket p) (s3Key fullPath (http.URL_RawQuery r)) r);
                  CallNext] |}).
Proof.
  intros Hm Hr Hj Hc. rewrite (ServeHTTP_GET _ _ _ _ _ _ Hm Hr Hj).
  erewrite GetHandler_error; [|by apply getS3Object_error].
  rewrite call_next_eq. cbn [resp trace]. by rewrite <- app_assoc.
Qed.

(** C6.  When the storage client returns an object whose content length
    is zero, the fetch gives an error; the handler writes nothing, and so
    no status 200, and hands the request to the next handler. *)
Theorem ServeHTTP_empty_object (p : S3Proxy) (r : http.Request) (next : Handler) (σ : World)
    (repl : gostring → gostring → gostring) (fullPath : gostring) (o : s3.GetObjectOutput) :
  http.Method r = http.MethodGet →
  http.Replacer r = Some repl →
  joinPath (repl (Root p) "") (http.URL_Path r) = Returned fullPath →
  client p (getObjectInput (Bucket p) (s3Key fullPath (http.URL_RawQuery r)) r)
    = (Some o, None) →
  s3.ContentLength o = Some 0%Z →
  getS3Object p (Bucket p) (s3Key fullPath (http.URL_RawQuery r)) r σ =
    Returned ((Some o, Some (errors_New "ContentLength is empty - cache is ")),
              {| resp := resp σ;
                 trace := trace σ ++
                   [CallGetObject (getObjectInput (Bucket p) (s3Key fullPath (http.URL_RawQuery r)) r)] |}) ∧
  ServeHTTP p r next σ =
    Returned (snd (next (resp σ) r),
              {| resp := fst (next (resp σ) r);
                 trace := trace σ ++
                   [CallGetObject (getObjectInput (Bucket p) (s3Key fullPath (http.URL_RawQuery r)) r);
                    CallNext] |}).
Proof.
  intros Hm Hr Hj Hc Hl. split; [by apply getS3Object_empty|].
  rewrite (ServeHTTP_GET _ _ _ _ _ _ Hm Hr Hj).
  erewrite GetHandler_error; [|by apply getS3Object_empty].
  rewrite call_next_eq. cbn [resp trace]. by rewrite <- app_assoc.
Qed.

(** C10.  [joinPath] panics on the empty path, on its first line, and
    returns on every other path; a GET request with an empty path reaches
    it and panics. *)
Theorem joinPath_empty_path :
  (∀ root, joinPath root "" = Panicked "slice bounds out of range [-1:]") ∧
  (∀ root uriPath, uriPath ≠ [] → ∃ newPath, joinPath root uriPath = Returned newPath) ∧
  (∀ p r next σ repl,
     http.Method r = http.MethodGet → http.Replacer r = Some repl → http.URL_Path r = [] →
     ServeHTTP p r next σ = Panicked "slice bounds out of range [-1:]").
Proof.
  split_and!.
  - done.
  - intros root [|c uriPath] Hne; [done|]. unfold joinPath. cbn [length].
    destruct (_ && _); eauto.
  - intros p r next σ repl Hm Hr Hp. open_lhs.
    by rewrite Hm, streq_refl, Hr, Hp.
Qed.

(** C9.  The storage request carries the bucket and the key, the value
    of each of [Range], [If-Match] and [If-None-Match] that is not empty,
    and for [If-Modified-Since] and [If-Unmodified-Since] the time their
    value parses to under [http.TimeFormat]; a header that is absent or
    empty, and a date that does not parse, leave the field nil.  Whatever
    the headers are, the storage call is made with this request, once:
    [getS3Object] returns after it, unless the client's own answer has a
    nil pointer where the content length is read. *)
Theorem getObjectInput_validators (p : S3Proxy) (bucket key : gostring) (r : http.Request)
    (σ : World) :
  let get := Header_Get (http.Header_ r) in
  let verbatim (v : gostring) := if streq v "" then None else Some v in
  let parsed (v : gostring) :=
    if streq v "" then None
    else match time_Parse http.TimeFormat v with
         | (t, None) => Some t
         | (_, Some _) => None
         end in
  let oi := getObjectInput bucket key r in
  s3.Bucket oi = Some bucket ∧
  s3.Key oi = Some key ∧
  s3.Range oi = verbatim (get "Range") ∧
  s3.IfMatch oi = verbatim (get "If-Match") ∧
  s3.IfNoneMatch oi = verbatim (get "If-None-Match") ∧
  s3.IfModifiedSince oi = parsed (get "If-Modified-Since") ∧
  s3.IfUnmodifiedSince oi = parsed (get "If-Unmodified-Since") ∧
  match getS3Object p bucket key r σ with
  | Returned (_, σ') => trace σ' = trace σ ++ [CallGetObject oi]
  | Panicked _ =>
      client p oi = (None, None) ∨
      ∃ o, client p oi = (Some o, None) ∧ s3.ContentLength o = None
  end.
Proof.
  intros get verbatim parsed oi.
  assert (Hfields :
    s3.Bucket oi = Some bucket ∧ s3.Key oi = Some key ∧
    s3.Range oi = verbatim (get "Range") ∧
    s3.IfMatch oi = verbatim (get "If-Match") ∧
    s3.IfNoneMatch oi = verbatim (get "If-None-Match") ∧
    s3.IfModifiedSince oi = parsed (get "If-Modified-Since") ∧
    s3.IfUnmodifiedSince oi = parsed (get "If-Unmodified-Since")).
  { subst oi get verbatim parsed. cbv beta. open_input.
    destruct (streq (Header_Get _ "Range") _),
             (streq (Header_Get _ "If-Match") _),
             (streq (Header_Get _ "If-None-Match") _),
             (streq (Header_Get _ "If-Modified-Since") _),
             (streq (Header_Get _ "If-Unmodified-Since") _);
      cbn [negb];
      try destruct (time_Parse _ (Header_Get _ "If-Modified-Since")) as [? [?|]];
      try destruct (time_Parse _ (Header_Get _ "If-Unmodified-Since")) as [? [?|]];
      by repeat split. }
  destruct Hfields as (? & ? & ? & ? & ? & ? & ?). split_and!; try done.
  fold oi. destruct (client p oi) as [obj err] eqn:Hc.
  open_fetch. run. fold oi. rewrite Hc.
  destruct err as [[code message|text]|].
  - destruct (streq code "NotModified"); [done|].
    by destruct (streq code "NoSuchKey").
  - done.
  - destruct obj as [o|]; [|by left].
    destruct (s3.ContentLength o) as [n|] eqn:Hl; [|right; eauto].
    by destruct (n =? 0)%Z.
Qed.

(** *** The response *)

Lemma with_header_eq (w w' : http.ResponseWriter) :
  http.wroteHeader w' = http.wroteHeader w → http.body w' = http.body w →
  w' = http.with_header w (http.header w').
Proof. destruct w, w'. cbn. by intros -> ->. Qed.

Lemma setStrHeader_header w key value :
  http.header (setStrHeader w key value) =
  if has_value (key, value) then Header_Set (http.header w) key (default [] value)
  else http.header w.
Proof. open_set. destruct value as [[|c v]|]; done. Qed.

Lemma setStrHeader_wroteHeader w key value :
  http.wroteHeader (setStrHeader w key value) = http.wroteHeader w.
Proof. open_set. destruct value as [[|c v]|]; done. Qed.

Lemma setStrHeader_body w key value :
  http.body (setStrHeader w key value) = http.body w.
Proof. open_set. destruct value as [[|c v]|]; done. Qed.

Lemma setTimeHeader_wroteHeader w key value :
  http.wroteHeader (setTimeHeader CanonicalMIMEHeaderKey time_UTC_Format w key value)
  = http.wroteHeader w.
Proof. open_set. destruct value as [v|]; [|done]. by destruct (negb _). Qed.

Lemma setTimeHeader_body w key value :
  http.body (setTimeHeader CanonicalMIMEHeaderKey time_UTC_Format w key value) = http.body w.
Proof. open_set. destruct value as [v|]; [|done]. by destruct (negb _). Qed.

Lemma setMetadataHeaders_wroteHeader w metadata :
  http.wroteHeader (setMetadataHeaders w metadata) = http.wroteHeader w.
Proof.
  revert w. induction metadata as [|[k v] md IH]; intros w; [done|].
  cbn. change (fold_left _ md ?w) with (setMetadataHeaders w md).
  by rewrite IH, setStrHeader_wroteHeader.
Qed.

Lemma setMetadataHeaders_body w metadata :
  http.body (setMetadataHeaders w metadata) = http.body w.
Proof.
  revert w. induction metadata as [|[k v] md IH]; intros w; [done|].
  cbn. change (fold_left _ md ?w) with (setMetadataHeaders w md).
  by rewrite IH, setStrHeader_body.
Qed.

(** An entry without a value, or with the empty one, is passed over. *)
Lemma setStrHeader_skip w key value :
  has_value (key, value) = false → setStrHeader w key value = w.
Proof. open_set. destruct value as [[|c v]|]; done. Qed.

Lemma setMetadataHeaders_filter w metadata :
  setMetadataHeaders w metadata = setMetadataHeaders w (List.filter has_value metadata).
Proof.
  revert w. induction metadata as [|[k v] md IH]; intros w; [done|].
  cbn [List.filter]. destruct (has_value (k, v)) eqn:E.
  - cbn. apply IH.
  - cbn. rewrite setStrHeader_skip by done. apply IH.
Qed.

(** A key none of the entries is filed under keeps its values. *)
Lemma setMetadataHeaders_other w metadata key :
  key ∉ map (λ kv, CanonicalMIMEHeaderKey (fst kv)) metadata →
  http.header (setMetadataHeaders w metadata) !! key = http.header w !! key.
Proof.
  revert w. induction metadata as [|[k v] md IH]; intros w Hk; [done|].
  cbn in Hk. apply not_elem_of_cons in Hk as [Hne Hk].
  cbn. change (fold_left _ md ?w) with (setMetadataHeaders w md).
  rewrite IH by done. rewrite setStrHeader_header.
  destruct (has_value _); [|done]. open_header.
  by rewrite lookup_insert_ne.
Qed.

(** The header of an entry with a value, when no other entry is filed
    under its key. *)
Lemma setMetadataHeaders_lookup w metadata key value :
  NoDup (map (λ kv, CanonicalMIMEHeaderKey (fst kv)) metadata) →
  (key, Some value) ∈ metadata → value ≠ [] →
  http.header (setMetadataHeaders w metadata) !! CanonicalMIMEHeaderKey key = Some [value].
Proof.
  revert w. induction metadata as [|[k v] md IH]; intros w Hnd Hin Hv.
  - by apply elem_of_nil in Hin.
  - cbn in Hnd. apply NoDup_cons in Hnd as [Hk Hnd].
    cbn. change (fold_left _ md ?w) with (setMetadataHeaders w md).
    apply elem_of_cons in Hin as [[= <- <-]|Hin]; [|by apply IH].
    rewrite setMetadataHeaders_other by done.
    rewrite setStrHeader_header. unfold has_value. cbn.
    destruct value; [done|]. cbn. open_header. by rewrite lookup_insert_eq.
Qed.

(** What [writeResponseFromGetObject] returns: the error of reading the
    body, a writer whose headers are those after the metadata loop but for
    the two keys touched after it, and the trace as it was.  Without a body
    only the header map changes; a status already written stays, with the
    headers that went out with it. *)
Lemma writeResponse_shape o σ :
  ∃ w9 w',
    writeResponseFromGetObject (Some o) σ =
      Returned (from_option read_err None (s3.Body o), {| resp := w'; trace := trace σ |}) ∧
    (∀ key,
       key ≠ CanonicalMIMEHeaderKey "X-Cache-S3" →
       s3.Body o = None ∨ key ≠ CanonicalMIMEHeaderKey "Content-Length" →
       http.header w' !! key = http.header (setMetadataHeaders w9 (s3.Metadata o)) !! key) ∧
    (s3.Body o = None →
       http.wroteHeader w' = http.wroteHeader (resp σ) ∧ http.body w' = http.body (resp σ)) ∧
    (∀ sent, http.wroteHeader (resp σ) = Some sent → http.wroteHeader w' = Some sent).
Proof.
  assert (Hkeep : ∀ w,
    http.wroteHeader
      (setMetadataHeaders
         (setTimeHeader CanonicalMIMEHeaderKey time_UTC_Format
            (setStrHeader (setStrHeader (setStrHeader (setStrHeader (setStrHeader
               (setStrHeader (setStrHeader (setStrHeader w
                  "Cache-Control" (s3.CacheControl o))
                  "Content-Disposition" (s3.ContentDisposition o))
                  "Content-Encoding" (s3.ContentEncoding o))
                  "Content-Language" (s3.ContentLanguage o))
                  "Content-Range" (s3.ContentRange o))
                  "Content-Type" (s3.ContentType o))
                  "ETag" (s3.ETag o))
                  "Expires" (s3.Expires o))
            "Last-Modified" (s3.LastModified o))
         (s3.Metadata o)) = http.wroteHeader w).
  { intros w. by rewrite setMetadataHeaders_wroteHeader, setTimeHeader_wroteHeader,
      !setStrHeader_wroteHeader. }
  open_response. run. destruct (s3.Body o) as [b|]; eexists _, _.
  - split_and!; [reflexivity| |done|].
    + intros key Hx [?|Hl]; [done|]. unfold io_Copy, http.Write, http.WriteHeader.
      cbn [fst]. destruct (0 <? length (data b)); [destruct (http.wroteHeader _)|]; cbn;
        open_header; by rewrite lookup_delete_ne, lookup_insert_ne.
    + intros sent Hsent. unfold io_Copy, http.Write, http.WriteHeader. cbn [fst].
      destruct (0 <? length (data b)); cbn; rewrite Hkeep, Hsent; cbn; by rewrite ?Hkeep.
  - split_and!; [reflexivity| | |].
    + intros key Hx _. cbn. open_header. by rewrite lookup_insert_ne.
    + intros _. cbn. split; [apply Hkeep|].
      by rewrite setMetadataHeaders_body, setTimeHeader_body, !setStrHeader_body.
    + intros sent Hsent. cbn. by rewrite Hkeep.
Qed.

(** C3, amended.  Every entry of the metadata whose value is there and
    not empty is set as a header, under the canonical form its key is filed
    under: the response has exactly that value there, provided no other
    entry is filed under the same key and the key is not one of the two the
    function writes afterwards ([X-Cache-S3], and [Content-Length] when
    there is a body).  An entry whose value is nil or empty is passed over:
    the loop does what it does without those entries. *)
Theorem writeResponse_metadata (o : s3.GetObjectOutput) (σ : World) :
  NoDup (map (λ kv, CanonicalMIMEHeaderKey (fst kv)) (s3.Metadata o)) →
  ∃ err σ',
    writeResponseFromGetObject (Some o) σ = Returned (err, σ') ∧
    (∀ key value,
       (key, Some value) ∈ s3.Metadata o → value ≠ [] →
       CanonicalMIMEHeaderKey key ≠ CanonicalMIMEHeaderKey "X-Cache-S3" →
       s3.Body o = None ∨ CanonicalMIMEHeaderKey key ≠ CanonicalMIMEHeaderKey "Content-Length" →
       http.header (resp σ') !! CanonicalMIMEHeaderKey key = Some [value] ∧
       Header_Get (http.header (resp σ')) key = value) ∧
    (∀ w key, setStrHeader w key None = w ∧ setStrHeader w key (Some []) = w) ∧
    (∀ w, setMetadataHeaders w (s3.Metadata o) =
          setMetadataHeaders w (List.filter has_value (s3.Metadata o))).
Proof.
  intros Hnd. destruct (writeResponse_shape o σ) as (w9 & w' & Heq & Hlook & _ & _).
  eexists _, _. split_and!; [exact Heq| | |].
  - intros key value Hin Hv Hx Hl. cbn [resp].
    assert (Hk : http.header w' !! CanonicalMIMEHeaderKey key = Some [value]).
    { rewrite Hlook by done. by apply setMetadataHeaders_lookup. }
    split; [done|]. open_header. by rewrite Hk.
  - intros w key. split; by apply setStrHeader_skip.
  - intros w. apply setMetadataHeaders_filter.
Qed.

(** C2, amended.  When the storage client reports [NotModified],
    [getS3Object] writes the status 304 on the writer as it came, before any
    header is set, and returns the client's output without an error;
    [GetHandler] then runs [writeResponseFromGetObject] on that output.
    Whatever the output carries, the status and the headers that went out
    with it stay those of the 304, and no further storage call is made.
    When the output has no body, nothing is written to the body, only the
    header map is changed after the status, and the request is not
    delegated; for the empty output the one change is [X-Cache-S3: hit]. *)
Theorem ServeHTTP_NotModified (p : S3Proxy) (r : http.Request) (next : Handler) (σ : World)
    (repl : gostring → gostring → gostring) (fullPath : gostring)
    (obj : option s3.GetObjectOutput) (message : gostring) :
  http.Method r = http.MethodGet →
  http.Replacer r = Some repl →
  joinPath (repl (Root p) "") (http.URL_Path r) = Returned fullPath →
  client p (getObjectInput (Bucket p) (s3Key fullPath (http.URL_RawQuery r)) r)
    = (obj, Some (awserr_Error "NotModified" message)) →
  let oi := getObjectInput (Bucket p) (s3Key fullPath (http.URL_RawQuery r)) r in
  let σ304 :=
    {| resp := http.WriteHeader (resp σ) 304; trace := trace σ ++ [CallGetObject oi] |} in
  getS3Object p (Bucket p) (s3Key fullPath (http.URL_RawQuery r)) r σ
    = Returned ((obj, None), σ304) ∧
  (http.wroteHeader (resp σ) = None →
     http.wroteHeader (resp σ304) = Some (304%Z, http.header (resp σ))) ∧
  GetHandler p r fullPath σ = writeResponseFromGetObject obj σ304 ∧
  (∀ o, obj = Some o →
     ∃ err σ', GetHandler p r fullPath σ = Returned (err, σ') ∧
               http.wroteHeader (resp σ') = http.wroteHeader (resp σ304) ∧
               trace σ' = trace σ304) ∧
  (∀ o, obj = Some o → s3.Body o = None →
     ∃ h, ServeHTTP p r next σ =
          Returned (None, {| resp := http.with_header (resp σ304) h; trace := trace σ304 |})) ∧
  (obj = Some s3.empty_output →
     ServeHTTP p r next σ =
     Returned (None,
               {| resp := http.with_header (resp σ304)
                            (Header_Set (http.header (resp σ)) "X-Cache-S3" "hit");
                  trace := trace σ304 |})).
Proof.
  intros Hm Hr Hj Hc oi σ304.
  pose proof (getS3Object_NotModified _ _ _ _ σ _ _ Hc) as Hg. fold oi σ304 in Hg.
  assert (Hh : GetHandler p r fullPath σ = writeResponseFromGetObject obj σ304).
  { open_handler. run. by rewrite Hg. }
  split_and!; [done| |done| | |].
  - intros Hfresh. cbn. unfold http.WriteHeader. by rewrite Hfresh.
  - intros o ->. rewrite Hh.
    destruct (writeResponse_shape o σ304) as (w9 & w' & -> & _ & _ & Hsent).
    eexists _, _. split; [done|]. cbn [resp trace]. split; [|done].
    destruct (http.wroteHeader (http.WriteHeader (resp σ) 304)) as [sent|] eqn:E.
    + subst σ304. cbn [resp] in *. rewrite E. by apply Hsent.
    + unfold http.WriteHeader in E.
      destruct (http.wroteHeader (resp σ)) eqn:E2; cbn in E; congruence.
  - intros o -> Hb. rewrite (ServeHTTP_GET _ _ _ _ _ _ Hm Hr Hj), Hh.
    destruct (writeResponse_shape o σ304) as (w9 & w' & -> & _ & Hsame & _).
    destruct (Hsame Hb) as [Hw Hbody]. rewrite Hb. cbn [from_option].
    exists (http.header w'). by rewrite <- with_header_eq.
  - intros ->. rewrite (ServeHTTP_GET _ _ _ _ _ _ Hm Hr Hj), Hh.
    open_response. run. cbn.
    replace (http.header (http.WriteHeader (resp σ) 304)) with (http.header (resp σ)); [done|].
    unfold http.WriteHeader. by destruct (http.wroteHeader (resp σ)).
Qed.

End handler_facts.

(** ** The theorems at a request *)

(** C4, at a POST request, with an empty path at that. *)
Lemma ServeHTTP_not_GET_witness :
  str "POST" ≠ http.MethodGet ∧
  sample.ServeHTTP (sample.proxy "/site" sample.notModified) (sample.post "" "a=1" ∅)
    sample.notFound sample.world0 =
  Returned (None, {| resp := http.WriteHeader sample.w0 404; trace := [CallNext] |}).
Proof.
  assert (Hm : str "POST" ≠ http.MethodGet) by done.
  split; [exact Hm|].
  exact (ServeHTTP_not_GET textproto.CanonicalMIMEHeaderKey sample.time_Parse
           sample.time_UTC_Format (sample.proxy "/site" sample.notModified)
           (sample.post "" "a=1" ∅) sample.notFound sample.world0 Hm).
Defined.

(** C5, at a GET request for [/page] under the root [/site]. *)
Lemma ServeHTTP_NoSuchKey_witness :
  sample.ServeHTTP (sample.proxy "/site" sample.noSuchKey) (sample.get "/page" "" ∅)
    sample.notFound sample.world0 =
  Returned (None, {| resp := http.WriteHeader sample.w0 404;
                     trace := [CallGetObject (sample.input "/site/page"); CallNext] |}).
Proof.
  exact (ServeHTTP_NoSuchKey textproto.CanonicalMIMEHeaderKey sample.time_Parse
           sample.time_UTC_Format (sample.proxy "/site" sample.noSuchKey)
           (sample.get "/page" "" ∅) sample.notFound sample.world0 sample.noRoot
           "/site/page" (Some s3.empty_output) "The specified key does not exist."
           eq_refl eq_refl eq_refl eq_refl).
Defined.

(** C6, at the same request and an object of no bytes. *)
Lemma ServeHTTP_empty_object_witness :
  sample.ServeHTTP (sample.proxy "/site" (sample.found sample.emptyObject))
    (sample.get "/page" "" ∅) sample.notFound sample.world0 =
  Returned (None, {| resp := http.WriteHeader sample.w0 404;
                     trace := [CallGetObject (sample.input "/site/page"); CallNext] |}).
Proof.
  exact (proj2 (ServeHTTP_empty_object textproto.CanonicalMIMEHeaderKey sample.time_Parse
           sample.time_UTC_Format (sample.proxy "/site" (sample.found sample.emptyObject))
           (sample.get "/page" "" ∅) sample.notFound sample.world0 sample.noRoot
           "/site/page" sample.emptyObject eq_refl eq_refl eq_refl eq_refl eq_refl)).
Defined.

(** C10, at the path [/page] and at a GET request with the empty path. *)
Lemma joinPath_empty_path_witness :
  (∃ newPath, joinPath "/site" "/page" = Returned newPath) ∧
  sample.ServeHTTP (sample.proxy "/site" sample.notModified) (sample.get "" "" ∅)
    sample.notFound sample.world0 = Panicked "slice bounds out of range [-1:]".
Proof.
  destruct (joinPath_empty_path textproto.CanonicalMIMEHeaderKey sample.time_Parse
              sample.time_UTC_Format) as (_ & Hret & Hpanic).
  split.
  - apply Hret. discriminate.
  - exact (Hpanic (sample.proxy "/site" sample.notModified) (sample.get "" "" ∅)
             sample.notFound sample.world0 sample.noRoot eq_refl eq_refl eq_refl).
Defined.

(** C2, as the claim states it, fails: at a GET request for [/page] and
    a client that reports [NotModified] with the empty output, the handler
    does not leave the writer at the status 304 alone:
    [writeResponseFromGetObject] has run and set [X-Cache-S3]. *)
Lemma ServeHTTP_NotModified_counterexample :
  sample.notModified (sample.input "/site/page")
    = (Some s3.empty_output, Some (awserr_Error "NotModified" "Not Modified")) ∧
  sample.ServeHTTP (sample.proxy "/site" sample.notModified) (sample.get "/page" "" ∅)
    sample.notFound sample.world0 =
  Returned (None,
            {| resp := {| http.header := {[ str "X-Cache-S3" := [str "hit"] ]};
                          http.wroteHeader := Some (304%Z, ∅);
                          http.body := [] |};
               trace := [CallGetObject (sample.input "/site/page")] |}) ∧
  sample.ServeHTTP (sample.proxy "/site" sample.notModified) (sample.get "/page" "" ∅)
    sample.notFound sample.world0 ≠
  Returned (None,
            {| resp := http.WriteHeader sample.w0 304;
               trace := [CallGetObject (sample.input "/site/page")] |}).
Proof.
  split; [done|]. split; [by vm_compute|].
  intros H. vm_compute in H. discriminate H.
Qed.

(** C2 amended, at the same request. *)
Lemma ServeHTTP_NotModified_witness :
  sample.ServeHTTP (sample.proxy "/site" sample.notModified) (sample.get "/page" "" ∅)
    sample.notFound sample.world0 =
  Returned (None,
            {| resp := http.with_header (http.WriteHeader sample.w0 304)
                         (sample.Header_Set ∅ "X-Cache-S3" "hit");
               trace := [CallGetObject (sample.input "/site/page")] |}).
Proof.
  exact (proj2 (proj2 (proj2 (proj2 (proj2
    (ServeHTTP_NotModified textproto.CanonicalMIMEHeaderKey sample.time_Parse
       sample.time_UTC_Format (sample.proxy "/site" sample.notModified)
       (sample.get "/page" "" ∅) sample.notFound sample.world0 sample.noRoot
       "/site/page" (Some s3.empty_output) "Not Modified"
       eq_refl eq_refl eq_refl eq_refl))))) eq_refl).
Defined.

(** C3, as the claim states it, fails: the entry [x-empty] of the page,
    whose value is the empty string, is not among the headers of the
    response; the entry [x-foo] is, under [X-Foo]. *)
Lemma writeResponse_metadata_counterexample :
  (str "x-empty", Some (str "")) ∈ s3.Metadata sample.page ∧
  sample.writeResponseFromGetObject (Some sample.page) sample.world0 =
  Returned (None,
            {| resp :=
                 {| http.header :=
                      {[ str "Content-Type" := [str "text/html"];
                         str "X-Foo" := [str "bar"];
                         str "X-Cache-S3" := [str "hit"] ]};
                    http.wroteHeader :=
                      Some (200%Z,
                            {[ str "Content-Type" := [str "text/html"];
                               str "X-Foo" := [str "bar"];
                               str "X-Cache-S3" := [str "hit"] ]});
                    http.body := "hello" |};
               trace := [] |}) ∧
  ({[ str "Content-Type" := [str "text/html"];
      str "X-Foo" := [str "bar"];
      str "X-Cache-S3" := [str "hit"] ]} : http.Header)
    !! textproto.CanonicalMIMEHeaderKey "x-empty" = None.
Proof.
  split; [repeat constructor|]. split; by vm_compute.
Qed.

(** C3 amended, at the page: its entry [x-foo]. *)
Lemma writeResponse_metadata_witness :
  NoDup (map (λ kv, textproto.CanonicalMIMEHeaderKey (fst kv)) (s3.Metadata sample.page)) ∧
  ∃ err σ',
    sample.writeResponseFromGetObject (Some sample.page) sample.world0 = Returned (err, σ') ∧
    sample.Header_Get (http.header (resp σ')) "x-foo" = str "bar".
Proof.
  assert (Hnd : NoDup (map (λ kv, textproto.CanonicalMIMEHeaderKey (fst kv))
                         (s3.Metadata sample.page))).
  { apply (bool_decide_unpack _). by vm_compute. }
  split; [exact Hnd|].
  destruct (writeResponse_metadata textproto.CanonicalMIMEHeaderKey sample.time_UTC_Format
              sample.page sample.world0 Hnd) as (err & σ' & Heq & Hcopy & _).
  exists err, σ'. split; [exact Heq|].
  apply (Hcopy "x-foo" "bar").
  - constructor.
  - discriminate.
  - apply (bool_decide_unpack _). by vm_compute.
  - right. apply (bool_decide_unpack _). by vm_compute.
Defined.

(** C9, at a request with an entity tag, a date that parses and one that
    does not. *)
Example getObjectInput_validators_example :
  getObjectInput textproto.CanonicalMIMEHeaderKey sample.time_Parse "bucket" "/site/page"
    (sample.get "/page" ""
       (sample.Header_Set
          (sample.Header_Set
             (sample.Header_Set ∅ "if-none-match" "abc")
             "If-Modified-Since" sample.date)
          "If-Unmodified-Since" "yesterday")) =
  {| s3.Bucket := Some (str "bucket"); s3.Key := Some (str "/site/page"); s3.Range := None;
     s3.IfMatch := None; s3.IfNoneMatch := Some (str "abc");
     s3.IfModifiedSince := Some sample.date_Time; s3.IfUnmodifiedSince := None |}.
Proof. by vm_compute. Qed.

(** * More about the key *)

Section key_facts.

(** The byte a buffer in form ends with is no separator, but for the
    buffer of a rooted path at its start. *)
Lemma buffer_form_last rooted out dd :
  buffer_form rooted out dd →
  out = (if rooted then [slash] else []) ∨ ∃ c t, out = c :: t ∧ c ≠ slash.
Proof.
  destruct 1 as [|out dd _ Hf Hlen|out dd e Hf (Hne & Hs & _)]; [by left| |]; right.
  - exists dot, (dot :: with_separator false out). done.
  - destruct (rev e) as [|c l] eqn:Er.
    { apply (f_equal (@rev ascii)) in Er. by rewrite rev_involutive in Er. }
    exists c, (l ++ with_separator rooted out). split; [done|]. intros ->.
    apply Hs. apply list_elem_of_In, in_rev. rewrite Er. by left.
Qed.

Lemma Clean_nonempty x : path.Clean x ≠ [].
Proof.
  destruct x as [|c x]; [done|].
  destruct (Clean_form (c :: x)) as (out & dd & _ & ->); [done|].
  unfold path.out_string. destruct out as [|c' out]; [done|].
  intros E. apply (f_equal (@rev ascii)) in E. by rewrite rev_involutive in E.
Qed.

(** A cleaned path ends with a separator only when it is the root. *)
Lemma Clean_no_trailing_slash x :
  strings.HasSuffix (path.Clean x) "/" = true → path.Clean x = str "/".
Proof.
  destruct x as [|c x]; [done|].
  destruct (Clean_form (c :: x)) as (out & dd & Hf & ->); [done|].
  intros [pre Hpre]%HasSuffix_spec.
  destruct (buffer_form_last _ _ _ Hf) as [->|(c' & t & -> & Hc)].
  - destruct (is_rooted (c :: x)); [done|]. by destruct pre as [|? [|? ?]].
  - cbn [path.out_string rev] in Hpre. change (str "/") with [slash] in Hpre.
    by apply app_inj_tail in Hpre as [_ ->].
Qed.

(** A separator after a cleaned path is cleaned away. *)
Lemma Clean_trailing_slash y :
  y ≠ [] → path.Clean (path.Clean y ++ [slash]) = path.Clean y.
Proof.
  intros Hy. destruct (streq (path.Clean y) ".") eqn:Edot.
  - apply streq_true in Edot. by rewrite Edot.
  - apply streq_false in Edot.
    destruct (Clean_reread y [slash] Hy Edot eq_refl) as (out & dd & Hf & Hne & Hrev & ->).
    rewrite Hrev. cbn. by destruct out.
Qed.

Lemma Join_root_rooted root urlPath :
  urlPath ≠ [] → is_rooted root = true → is_rooted (path.Join [root; urlPath]) = true.
Proof.
  intros Hu Hr. rewrite Join_two; [|by destruct root|done].
  apply Clean_rooted. by destruct root.
Qed.

(** [isDir] in [joinPath] is [HasSuffix]. *)
Lemma joinPath_eq root uriPath :
  uriPath ≠ [] →
  joinPath root uriPath =
  Returned (if strings.HasSuffix uriPath "/" && negb (streq (path.Join [root; uriPath]) "/")
            then path.Join [root; uriPath] ++ "/"
            else path.Join [root; uriPath]).
Proof.
  intros Hu. unfold joinPath, strings.HasSuffix.
  destruct (length uriPath) as [|n] eqn:Hn; [by destruct uriPath|].
  change (length (str "/")) with 1. cbn [Nat.leb Nat.sub]. rewrite Nat.sub_0_r.
  by destruct (_ && _).
Qed.

Lemma joinPath_cases root uriPath fullPath :
  joinPath root uriPath = Returned fullPath →
  uriPath ≠ [] ∧
  ∃ y, y ≠ [] ∧ path.Join [root; uriPath] = path.Clean y ∧
       (is_rooted root = true → is_rooted y = true) ∧
       ((strings.HasSuffix uriPath "/" = true ∧ path.Clean y ≠ str "/" ∧
         fullPath = path.Clean y ++ [slash]) ∨
        ((strings.HasSuffix uriPath "/" = false ∨ path.Clean y = str "/") ∧
         fullPath = path.Clean y)).
Proof.
  intros Hj. assert (Hu : uriPath ≠ []) by (intros ->; discriminate Hj).
  split; [done|]. rewrite (joinPath_eq _ _ Hu) in Hj.
  remember (if strings.HasSuffix uriPath "/" && _ then _ else _) as X eqn:HX in Hj.
  injection Hj as <-. subst X.
  assert (Hy : ∃ y, y ≠ [] ∧ path.Join [root; uriPath] = path.Clean y ∧
                    (is_rooted root = true → is_rooted y = true)).
  { destruct root as [|c root].
    - exists uriPath. split_and!; [done|by apply Join_empty_first|done].
    - exists ((c :: root) ++ slash :: uriPath). split_and!; [done|by apply Join_two|done]. }
  destruct Hy as (y & Hy & -> & Hr). exists y. split_and!; [done|done|done|].
  destruct (strings.HasSuffix uriPath "/"); cbn [andb].
  - destruct (streq (path.Clean y) "/") eqn:E; cbn [negb].
    + right. apply streq_true in E. split; [by right|done].
    + left. apply streq_false in E. done.
  - right. split; [by left|done].
Qed.

(** X1.  The path [joinPath] returns ends with a separator exactly when
    the path of the request does, or the joined path is the root. *)
Theorem joinPath_separator (root uriPath fullPath : gostring) :
  joinPath root uriPath = Returned fullPath →
  strings.HasSuffix fullPath "/" =
  strings.HasSuffix uriPath "/" || streq (path.Join [root; uriPath]) "/".
Proof.
  intros Hj. destruct (joinPath_cases _ _ _ Hj) as (Hu & y & Hy & -> & _ & Hc).
  destruct Hc as [(Hd & Hroot & ->)|([Hd|Hroot] & ->)].
  - rewrite Hd. cbn [orb]. apply HasSuffix_spec. by exists (path.Clean y).
  - rewrite Hd. cbn [orb]. destruct (streq (path.Clean y) "/") eqn:E.
    + apply streq_true in E. by rewrite E.
    + destruct (strings.HasSuffix (path.Clean y) "/") eqn:Es; [|done].
      apply Clean_no_trailing_slash, streq_true in Es. congruence.
  - rewrite Hroot. by rewrite orb_true_r.
Qed.

(** X1, at the path [/page] under the root [/site]. *)
Lemma joinPath_separator_witness :
  joinPath "/site" "/page" = Returned (str "/site/page") ∧
  strings.HasSuffix "/site/page" "/" = false.
Proof.
  assert (Hj : joinPath "/site" "/page" = Returned (str "/site/page")) by reflexivity.
  split; [exact Hj|]. exact (joinPath_separator "/site" "/page" "/site/page" Hj).
Defined.

(** X2.  What [joinPath] returns is in its final form: joined again,
    under the empty root, it comes back as it is. *)
Theorem joinPath_again (root uriPath fullPath : gostring) :
  joinPath root uriPath = Returned fullPath →
  joinPath [] fullPath = Returned fullPath.
Proof.
  intros Hj. destruct (joinPath_cases _ _ _ Hj) as (Hu & y & Hy & HN & _ & Hc).
  assert (Hne : path.Clean y ≠ []) by apply Clean_nonempty.
  destruct Hc as [(Hd & Hroot & ->)|(_ & ->)].
  - rewrite joinPath_eq by (by destruct (path.Clean y)).
    rewrite Join_empty_first by (by destruct (path.Clean y)).
    rewrite Clean_trailing_slash by done.
    replace (strings.HasSuffix (path.Clean y ++ [slash]) "/") with true
      by (symmetry; apply HasSuffix_spec; by exists (path.Clean y)).
    apply streq_false in Hroot. by rewrite Hroot.
  - rewrite joinPath_eq by done. rewrite Join_empty_first by done.
    rewrite Clean_idempotent.
    destruct (strings.HasSuffix (path.Clean y) "/") eqn:Es; [|done].
    apply Clean_no_trailing_slash in Es. by rewrite Es.
Qed.

(** X2, at the path [/a/../images/] under the root [/site]. *)
Lemma joinPath_again_witness :
  joinPath "/site" "/a/../images/" = Returned (str "/site/images/") ∧
  joinPath [] "/site/images/" = Returned (str "/site/images/").
Proof.
  assert (Hj : joinPath "/site" "/a/../images/" = Returned (str "/site/images/"))
    by reflexivity.
  split; [exact Hj|]. exact (joinPath_again "/site" "/a/../images/" "/site/images/" Hj).
Defined.

Lemma last_element_not_root p e :
  real_element e → path.Clean (p ++ slash :: e) ≠ str "/".
Proof.
  intros He E. destruct (real_element_not_slash _ He) as [_ [n Hn]].
  destruct (Clean_last_element p e He) as [[_ H]|[pre H]]; rewrite H in E.
  - destruct He as (_ & Hs & _). apply Hs. rewrite E. constructor.
  - apply (f_equal length) in E. rewrite length_app in E. cbn in E. lia.
Qed.

(** The key without a query, for a path [joinPath] returned: a cleaned
    path that is not the root; with a query, the digest is joined under
    it. *)
Lemma s3Key_base root urlPath fullPath :
  joinPath root urlPath = Returned fullPath →
  ∃ z, z ≠ [] ∧ s3Key fullPath "" = path.Clean z ∧ s3Key fullPath "" ≠ str "/" ∧
       (is_rooted root = true → is_rooted z = true) ∧
       ∀ rawQuery, rawQuery ≠ [] →
         s3Key fullPath rawQuery =
         path.Join [s3Key fullPath ""; str "/"; convertSha1 rawQuery].
Proof.
  intros Hj. destruct (joinPath_cases _ _ _ Hj) as (Hu & y & Hy & HN & Hr & Hc).
  assert (Hq : ∀ rawQuery, rawQuery ≠ [] →
    s3Key fullPath rawQuery = path.Join [s3Key fullPath ""; str "/"; convertSha1 rawQuery]).
  { intros [|c q] Hq; [done|]. reflexivity. }
  assert (Hne : path.Clean y ≠ []) by apply Clean_nonempty.
  assert (Hdir : ∀ f, f ≠ [] → strings.HasSuffix f "/" = true →
    (is_rooted root = true → is_rooted f = true) →
    ∃ z, z ≠ [] ∧ s3Key f "" = path.Clean z ∧ s3Key f "" ≠ str "/" ∧
         (is_rooted root = true → is_rooted z = true)).
  { intros f Hf Hs Hrf. exists (f ++ slash :: defaultIndex).
    rewrite s3Key_dir by done. split_and!; [by destruct f|done| |].
    - apply last_element_not_root, defaultIndex_real.
    - intros Hroot. specialize (Hrf Hroot). by destruct f. }
  assert (Hrooted : is_rooted root = true → is_rooted (path.Clean y) = true).
  { intros Hroot. by apply Clean_rooted, Hr. }
  destruct Hc as [(Hd & Hroot & ->)|(_ & ->)].
  - destruct (Hdir (path.Clean y ++ [slash])) as (z & ? & ? & ? & ?).
    + by destruct (path.Clean y).
    + apply HasSuffix_spec. by exists (path.Clean y).
    + intros H. specialize (Hrooted H). by destruct (path.Clean y).
    + exists z. split_and!; done.
  - destruct (strings.HasSuffix (path.Clean y) "/") eqn:Es.
    + destruct (Hdir (path.Clean y) Hne Es Hrooted) as (z & ? & ? & ? & ?).
      exists z. split_and!; done.
    + exists y. assert (Hk : s3Key (path.Clean y) "" = path.Clean y).
      { unfold s3Key. by rewrite Es. }
      split_and!; [done|exact Hk| |done|done].
      rewrite Hk. intros E. by rewrite E in Es.
Qed.

(** X3.  The key of a request is in normal form: it is not empty,
    cleaning it again changes nothing, it does not end with a separator,
    and it begins with a separator when the root does. *)
Theorem s3Key_normal_form (root urlPath rawQuery fullPath : gostring) :
  joinPath root urlPath = Returned fullPath →
  s3Key fullPath rawQuery ≠ [] ∧
  path.Clean (s3Key fullPath rawQuery) = s3Key fullPath rawQuery ∧
  strings.HasSuffix (s3Key fullPath rawQuery) "/" = false ∧
  (is_rooted root = true → is_rooted (s3Key fullPath rawQuery) = true).
Proof.
  intros Hj. destruct (s3Key_base _ _ _ Hj) as (z & Hz & Hb & Hnr & Hr & Hq).
  assert (Hform : ∃ w, w ≠ [] ∧ s3Key fullPath rawQuery = path.Clean w ∧
    s3Key fullPath rawQuery ≠ str "/" ∧ (is_rooted root = true → is_rooted w = true)).
  { destruct rawQuery as [|c q]; [by exists z|]. rewrite Hq by done.
    rewrite Join_under by apply convertSha1_real. eexists. split_and!; [|reflexivity| |].
    - by destruct (s3Key fullPath "").
    - apply last_element_not_root, convertSha1_real.
    - intros Hroot. specialize (Hr Hroot). rewrite Hb.
      pose proof (Clean_rooted z Hr) as Hc. by destruct (path.Clean z). }
  destruct Hform as (w & Hw & -> & Hnroot & Hrw). split_and!.
  - apply Clean_nonempty.
  - apply Clean_idempotent.
  - destruct (strings.HasSuffix (path.Clean w) "/") eqn:Es; [|done].
    by apply Clean_no_trailing_slash in Es.
  - intros Hroot. by apply Clean_rooted, Hrw.
Qed.

(** X3, at the root [/site], the path [/a/../images/] and the query [a=1]. *)
Lemma s3Key_normal_form_witness :
  joinPath "/site" "/a/../images/" = Returned (str "/site/images/") ∧
  path.Clean (s3Key "/site/images/" "a=1") = s3Key "/site/images/" "a=1".
Proof.
  assert (Hj : joinPath "/site" "/a/../images/" = Returned (str "/site/images/"))
    by reflexivity.
  split; [exact Hj|].
  exact (proj1 (proj2 (s3Key_normal_form "/site" "/a/../images/" "a=1" "/site/images/" Hj))).
Defined.

(** X4.  With a query, the key is the key the same path has without a
    query, a separator, and the digest of the query; when the key without
    a query is [.], it is the digest alone. *)
Theorem s3Key_query_under (root urlPath rawQuery fullPath : gostring) :
  joinPath root urlPath = Returned fullPath →
  rawQuery ≠ [] →
  s3Key fullPath rawQuery =
  if streq (s3Key fullPath "") "." then convertSha1 rawQuery
  else s3Key fullPath "" ++ slash :: convertSha1 rawQuery.
Proof.
  intros Hj Hne. destruct (s3Key_base _ _ _ Hj) as (z & Hz & Hb & Hnr & _ & Hq).
  rewrite Hq by done. rewrite Join_under by apply convertSha1_real.
  pose proof (Clean_then_element z 2 _ Hz (convertSha1_real rawQuery)) as H.
  rewrite <- Hb in H. apply streq_false in Hnr. rewrite Hnr in H. rewrite <- H.
  f_equal. destruct (s3Key fullPath "") eqn:E.
  - rewrite Hb in E. by destruct (Clean_nonempty z).
  - cbn [repeat]. by rewrite <- !app_assoc.
Qed.

(** X4, at the root [/site], the path [/page] and the query [a=1]. *)
Lemma s3Key_query_under_witness :
  joinPath "/site" "/page" = Returned (str "/site/page") ∧ str "a=1" ≠ [] ∧
  s3Key "/site/page" "a=1" = str "/site/page" ++ slash :: convertSha1 "a=1".
Proof.
  assert (Hj : joinPath "/site" "/page" = Returned (str "/site/page")) by reflexivity.
  assert (Hq : str "a=1" ≠ []) by done.
  split; [exact Hj|]. split; [exact Hq|].
  exact (s3Key_query_under "/site" "/page" "a=1" "/site/page" Hj Hq).
Defined.

(** X5.  Under the empty root, a path that is already clean and is not
    the root is the key, as it is. *)
Theorem s3Key_whole_path (urlPath : gostring) :
  path.Clean urlPath = urlPath → urlPath ≠ str "/" →
  joinPath [] urlPath = Returned urlPath ∧ s3Key urlPath "" = urlPath.
Proof.
  intros Hc Hroot.
  assert (Hne : urlPath ≠ []) by (rewrite <- Hc; apply Clean_nonempty).
  assert (Hs : strings.HasSuffix urlPath "/" = false).
  { destruct (strings.HasSuffix urlPath "/") eqn:Es; [|done].
    rewrite <- Hc in Es. apply Clean_no_trailing_slash in Es. congruence. }
  split.
  - rewrite joinPath_eq by done. rewrite Hs. cbn [andb].
    by rewrite Join_empty_first, Hc.
  - unfold s3Key. by rewrite Hs.
Qed.

(** X5, at the path [/images/logo.png]. *)
Lemma s3Key_whole_path_witness :
  path.Clean "/images/logo.png" = str "/images/logo.png" ∧
  str "/images/logo.png" ≠ str "/" ∧
  s3Key "/images/logo.png" "" = str "/images/logo.png".
Proof.
  assert (Hc : path.Clean "/images/logo.png" = str "/images/logo.png") by reflexivity.
  assert (Hr : str "/images/logo.png" ≠ str "/") by discriminate.
  split; [exact Hc|]. split; [exact Hr|].
  exact (proj2 (s3Key_whole_path "/images/logo.png" Hc Hr)).
Defined.

End key_facts.

(** * More about the dispatcher *)

Section dispatch_facts.

Context (CanonicalMIMEHeaderKey : gostring → gostring).
Context (time_Parse : gostring → gostring → Time * option error).
Context (time_UTC_Format : Time → gostring → gostring).

Local Abbreviation Header_Get := (Header_Get CanonicalMIMEHeaderKey).
Local Abbreviation Header_Set := (Header_Set CanonicalMIMEHeaderKey).
Local Abbreviation setStrHeader := (setStrHeader CanonicalMIMEHeaderKey).
Local Abbreviation setTimeHeader := (setTimeHeader CanonicalMIMEHeaderKey time_UTC_Format).
Local Abbreviation setMetadataHeaders := (setMetadataHeaders CanonicalMIMEHeaderKey).
Local Abbreviation getObjectInput := (getObjectInput CanonicalMIMEHeaderKey time_Parse).
Local Abbreviation getS3Object := (getS3Object CanonicalMIMEHeaderKey time_Parse).
Local Abbreviation writeResponseFromGetObject :=
  (writeResponseFromGetObject CanonicalMIMEHeaderKey time_UTC_Format).
Local Abbreviation GetHandler := (GetHandler CanonicalMIMEHeaderKey time_Parse time_UTC_Format).
Local Abbreviation ServeHTTP := (ServeHTTP CanonicalMIMEHeaderKey time_Parse time_UTC_Format).

(* Unfolds the sequencing of [M]. *)
Ltac steps :=
  cbv [mbind M_bind mret M_ret on_writer emit call_GetObject call_next
       call_io_Copy lift panic resp trace].

Lemma getS3Object_hit p bucket key r σ o n :
  client p (getObjectInput bucket key r) = (Some o, None) →
  s3.ContentLength o = Some n → n ≠ 0%Z →
  getS3Object p bucket key r σ =
  Returned ((Some o, None),
            {| resp := resp σ;
               trace := trace σ ++ [CallGetObject (getObjectInput bucket key r)] |}).
Proof.
  intros Hc Hl Hn. open_fetch. steps. rewrite Hc, Hl.
  by destruct (Z.eqb_spec n 0).
Qed.

Lemma GetHandler_ok p r fullPath σ obj σ' :
  getS3Object p (Bucket p) (s3Key fullPath (http.URL_RawQuery r)) r σ
    = Returned ((obj, None), σ') →
  GetHandler p r fullPath σ = writeResponseFromGetObject obj σ'.
Proof. intros Hg. open_handler. steps. by rewrite Hg. Qed.

(** What a GET request leaves in the trace, and when it panics. *)
Lemma ServeHTTP_fetch_trace (p : S3Proxy) (r : http.Request) (next : Handler) (σ : World)
    (repl : gostring → gostring → gostring) (fullPath : gostring) :
  http.Method r = http.MethodGet →
  http.Replacer r = Some repl →
  joinPath (repl (Root p) "") (http.URL_Path r) = Returned fullPath →
  let oi := getObjectInput (Bucket p) (s3Key fullPath (http.URL_RawQuery r)) r in
  match ServeHTTP p r next σ with
  | Returned (_, σ') =>
      trace σ' = trace σ ++ [CallGetObject oi] ∨
      trace σ' = trace σ ++ [CallGetObject oi; CallNext]
  | Panicked _ =>
      fst (client p oi) = None ∨
      ∃ o, client p oi = (Some o, None) ∧ s3.ContentLength o = None
  end.
Proof.
  intros Hm Hr Hj oi.
  rewrite (ServeHTTP_GET _ _ _ _ _ _ _ _ _ Hm Hr Hj).
  assert (Hresp : ∀ o σ1, trace σ1 = trace σ ++ [CallGetObject oi] →
    match
      match writeResponseFromGetObject (Some o) σ1 with
      | Returned (None, σ') => Returned (None, σ')
      | Returned (Some _, σ') => call_next next r σ'
      | Panicked reason => Panicked reason
      end
    with
    | Returned (_, σ') =>
        trace σ' = trace σ ++ [CallGetObject oi] ∨
        trace σ' = trace σ ++ [CallGetObject oi; CallNext]
    | Panicked _ =>
        fst (client p oi) = None ∨
        ∃ o, client p oi = (Some o, None) ∧ s3.ContentLength o = None
    end).
  { intros o σ1 Ht.
    destruct (writeResponse_shape CanonicalMIMEHeaderKey time_UTC_Format o σ1)
      as (w9 & w' & -> & _).
    destruct (from_option read_err None (s3.Body o)); [|by left].
    rewrite call_next_eq. cbn [trace]. right. rewrite Ht. by rewrite <- app_assoc. }
  destruct (client p oi) as [obj err] eqn:Hc.
  destruct err as [e|].
  - destruct e as [code message|text].
    + destruct (streq code "NotModified") eqn:E.
      * apply streq_true in E as ->.
        erewrite GetHandler_ok; [|by eapply getS3Object_NotModified].
        destruct obj as [o|]; [by apply Hresp|]. by left.
      * apply streq_false in E.
        erewrite GetHandler_error; [|apply getS3Object_error; [done|congruence]].
        rewrite call_next_eq. cbn [trace]. right. by rewrite <- app_assoc.
    + erewrite GetHandler_error; [|by apply getS3Object_error].
      rewrite call_next_eq. cbn [trace]. right. by rewrite <- app_assoc.
  - destruct obj as [o|].
    + destruct (s3.ContentLength o) as [n|] eqn:Hl.
      * destruct (Z.eq_dec n 0%Z) as [->|Hn].
        -- erewrite GetHandler_error; [|by apply getS3Object_empty].
           rewrite call_next_eq. cbn [trace]. right. by rewrite <- app_assoc.
        -- erewrite GetHandler_ok; [|by eapply getS3Object_hit].
           by apply Hresp.
      * open_handler. open_fetch. steps. fold oi. rewrite Hc, Hl. right. eauto.
    + open_handler. open_fetch. steps. fold oi. rewrite Hc. by left.
Qed.

(** X6.  A GET request makes exactly one storage call, for the bucket of
    the proxy and the key of the request, and hands the request on at most
    once, after that call.  It panics only when the client's answer has a
    nil pointer where the handler reads it. *)
Theorem ServeHTTP_one_fetch (p : S3Proxy) (r : http.Request) (next : Handler) (σ : World)
    (repl : gostring → gostring → gostring) (fullPath : gostring) :
  http.Method r = http.MethodGet →
  http.Replacer r = Some repl →
  joinPath (repl (Root p) "") (http.URL_Path r) = Returned fullPath →
  let oi := getObjectInput (Bucket p) (s3Key fullPath (http.URL_RawQuery r)) r in
  match ServeHTTP p r next σ with
  | Returned (_, σ') =>
      trace σ' = trace σ ++ [CallGetObject oi] ∨
      trace σ' = trace σ ++ [CallGetObject oi; CallNext]
  | Panicked _ =>
      fst (client p oi) = None ∨
      ∃ o, client p oi = (Some o, None) ∧ s3.ContentLength o = None
  end.
Proof. apply ServeHTTP_fetch_trace. Qed.

(** X7.  Whatever error the storage client returns, other than
    [NotModified], the handler has written nothing and hands the request
    to the next handler, whose error it returns. *)
Theorem ServeHTTP_storage_error (p : S3Proxy) (r : http.Request) (next : Handler) (σ : World)
    (repl : gostring → gostring → gostring) (fullPath : gostring)
    (obj : option s3.GetObjectOutput) (e : error) :
  http.Method r = http.MethodGet →
  http.Replacer r = Some repl →
  joinPath (repl (Root p) "") (http.URL_Path r) = Returned fullPath →
  client p (getObjectInput (Bucket p) (s3Key fullPath (http.URL_RawQuery r)) r)
    = (obj, Some e) →
  (∀ message, e ≠ awserr_Error "NotModified" message) →
  ServeHTTP p r next σ =
  Returned (snd (next (resp σ) r),
            {| resp := fst (next (resp σ) r);
               trace := trace σ ++
                 [CallGetObject (getObjectInput (Bucket p) (s3Key fullPath (http.URL_RawQuery r)) r);
                  CallNext] |}).
Proof.
  intros Hm Hr Hj Hc Hne. rewrite (ServeHTTP_GET _ _ _ _ _ _ _ _ _ Hm Hr Hj).
  erewrite GetHandler_error; [|by apply getS3Object_error].
  rewrite call_next_eq. cbn [resp trace]. by rewrite <- app_assoc.
Qed.

(** *** The response of a hit *)

Lemma with_header_same (w w' : http.ResponseWriter) h :
  http.wroteHeader w' = http.wroteHeader w → http.body w' = http.body w →
  http.with_header w' h = http.with_header w h.
Proof. destruct w, w'. cbn. by intros -> ->. Qed.

Lemma io_Copy_header w b : http.header (fst (io_Copy w b)) = http.header w.
Proof.
  unfold io_Copy, http.Write, http.WriteHeader. cbn [fst].
  destruct (0 <? length (data b)); [|done]. by destruct (http.wroteHeader w).
Qed.

Lemma io_Copy_body w b : http.body (fst (io_Copy w b)) = http.body w ++ data b.
Proof.
  unfold io_Copy, http.Write, http.WriteHeader. cbn [fst].
  destruct (data b) as [|c d] eqn:E; cbn; [by rewrite app_nil_r|].
  by destruct (http.wroteHeader w).
Qed.

(** The writer [writeResponseFromGetObject] leaves: only the header map
    is set, to the headers of the named fields, of the time and of the
    metadata, then the marker, without [Content-Length] when there is a
    body; then the body is copied. *)
Lemma writeResponse_writer o σ :
  let copied :=
    setMetadataHeaders
      (setTimeHeader (setMetadataHeaders (resp σ) (named_headers o))
         "Last-Modified" (s3.LastModified o))
      (s3.Metadata o) in
  let marked := Header_Set (http.header copied) "X-Cache-S3" "hit" in
  let h :=
    match s3.Body o with
    | Some _ => Header_Del CanonicalMIMEHeaderKey marked "Content-Length"
    | None => marked
    end in
  writeResponseFromGetObject (Some o) σ =
  Returned (from_option read_err None (s3.Body o),
            {| resp := match s3.Body o with
                       | Some b => fst (io_Copy (http.with_header (resp σ) h) b)
                       | None => http.with_header (resp σ) h
                       end;
               trace := trace σ |}).
Proof.
  intros copied marked h.
  assert (Hw : http.wroteHeader copied = http.wroteHeader (resp σ)).
  { subst copied. by rewrite setMetadataHeaders_wroteHeader, setTimeHeader_wroteHeader,
      setMetadataHeaders_wroteHeader. }
  assert (Hb : http.body copied = http.body (resp σ)).
  { subst copied. by rewrite setMetadataHeaders_body, setTimeHeader_body,
      setMetadataHeaders_body. }
  open_response. steps.
  change (let (resp0, _) := σ in resp0) with (resp σ).
  change (let (_, trace0) := σ in trace0) with (trace σ).
  change (setMetadataHeaders (setTimeHeader _ "Last-Modified" (s3.LastModified o))
            (s3.Metadata o)) with copied.
  fold marked. subst h. destruct (s3.Body o) as [b|]; cbn [from_option].
  - unfold io_Copy. cbn [fst http.header http.with_header].
    assert (He : ∀ k, http.with_header (http.with_header copied marked) k
                      = http.with_header (resp σ) k)
      by (intros k; by apply with_header_same).
    by rewrite He.
  - do 3 f_equal. by apply with_header_same.
Qed.

Lemma io_Copy_wroteHeader w b :
  http.wroteHeader (fst (io_Copy w b)) =
  match http.wroteHeader w with
  | Some sent => Some sent
  | None => if 0 <? length (data b) then Some (http.StatusOK, http.header w) else None
  end.
Proof.
  unfold io_Copy, http.Write, http.WriteHeader. cbn [fst].
  destruct (0 <? length (data b)); destruct (http.wroteHeader w) eqn:E; cbn; by rewrite ?E.
Qed.

Lemma setTimeHeader_other w key value k :
  k ≠ CanonicalMIMEHeaderKey key →
  http.header (setTimeHeader w key value) !! k = http.header w !! k.
Proof.
  intros Hk. open_set. destruct value as [v|]; [|done]. destruct (negb _); [|done].
  cbn. open_header. by rewrite lookup_insert_ne.
Qed.

Lemma setTimeHeader_lookup w key t :
  Time_DeepEqual t Time_zero = false →
  http.header (setTimeHeader w key (Some t)) !! CanonicalMIMEHeaderKey key
  = Some [time_UTC_Format t http.TimeFormat].
Proof. intros Ht. open_set. rewrite Ht. cbn. open_header. by rewrite lookup_insert_eq. Qed.

(** The headers, the status and the body [writeResponseFromGetObject]
    leaves, each by itself. *)
Lemma writeResponse_parts o σ :
  let copied :=
    setMetadataHeaders
      (setTimeHeader (setMetadataHeaders (resp σ) (named_headers o))
         "Last-Modified" (s3.LastModified o))
      (s3.Metadata o) in
  let marked := Header_Set (http.header copied) "X-Cache-S3" "hit" in
  let h :=
    match s3.Body o with
    | Some _ => Header_Del CanonicalMIMEHeaderKey marked "Content-Length"
    | None => marked
    end in
  ∃ w',
    writeResponseFromGetObject (Some o) σ =
      Returned (from_option read_err None (s3.Body o), {| resp := w'; trace := trace σ |}) ∧
    http.header w' = h ∧
    http.body w' = http.body (resp σ) ++ from_option data [] (s3.Body o) ∧
    http.wroteHeader w' =
      match http.wroteHeader (resp σ) with
      | Some sent => Some sent
      | None =>
          if 0 <? length (from_option data [] (s3.Body o))
          then Some (http.StatusOK, h) else None
      end.
Proof.
  intros copied marked h. rewrite writeResponse_writer. fold copied marked h.
  eexists. split; [reflexivity|]. destruct (s3.Body o) as [b|]; cbn [from_option].
  - rewrite io_Copy_header, io_Copy_body, io_Copy_wroteHeader. done.
  - cbn. rewrite app_nil_r. by destruct (http.wroteHeader (resp σ)).
Qed.


(** X9.  A header of the writer under a key that is none of those the
    function writes under stays as it was. *)
Theorem writeResponse_frame (o : s3.GetObjectOutput) (σ : World) (key : gostring) :
  key ∉ map CanonicalMIMEHeaderKey (written_keys o) →
  ∃ err σ',
    writeResponseFromGetObject (Some o) σ = Returned (err, σ') ∧
    http.header (resp σ') !! key = http.header (resp σ) !! key.
Proof.
  intros Hk. destruct (writeResponse_parts o σ) as (w' & Heq & Hh & _ & _).
  eexists _, _. split; [exact Heq|]. cbn [resp]. rewrite Hh.
  unfold written_keys in Hk. rewrite !map_app, !not_elem_of_app in Hk.
  destruct Hk as (Hnamed & Hthree & Hmeta).
  cbn [map] in Hthree. rewrite !not_elem_of_cons in Hthree.
  destruct Hthree as (Hlm & Hx & Hcl & _).
  rewrite !map_map in Hnamed, Hmeta.
  assert (Hcopied :
    http.header
      (setMetadataHeaders
         (setTimeHeader (setMetadataHeaders (resp σ) (named_headers o))
            "Last-Modified" (s3.LastModified o))
         (s3.Metadata o)) !! key = http.header (resp σ) !! key).
  { rewrite setMetadataHeaders_other by done. rewrite setTimeHeader_other by done.
    by rewrite setMetadataHeaders_other. }
  destruct (s3.Body o) as [b|]; open_header.
  - rewrite lookup_delete_ne by done. by rewrite lookup_insert_ne.
  - by rewrite lookup_insert_ne.
Qed.

Lemma NoDup_map_eq {A B : Type} (f : A → B) (l : list A) (x y : A) :
  NoDup (map f l) → x ∈ l → y ∈ l → f x = f y → x = y.
Proof.
  induction l as [|a l IH]; intros Hnd Hx Hy Hf; [by apply elem_of_nil in Hx|].
  cbn in Hnd. apply NoDup_cons in Hnd as [Ha Hnd].
  apply elem_of_cons in Hx as [->|Hx]; apply elem_of_cons in Hy as [->|Hy].
  - done.
  - destruct Ha. rewrite Hf. apply list_elem_of_fmap. by exists y.
  - destruct Ha. rewrite <- Hf. apply list_elem_of_fmap. by exists x.
  - by apply IH.
Qed.

(** X10.  When no two of the keys the function writes under are filed
    under the same key, each of the eight named fields that has a value is
    the one value of its header, a named field that is nil or empty leaves
    the header the writer had, and [Last-Modified] is the time of the
    object in [http.TimeFormat]. *)
Theorem writeResponse_named_headers (o : s3.GetObjectOutput) (σ : World) :
  NoDup (map CanonicalMIMEHeaderKey (written_keys o)) →
  ∃ err σ',
    writeResponseFromGetObject (Some o) σ = Returned (err, σ') ∧
    (∀ key value,
       (key, Some value) ∈ named_headers o → value ≠ [] →
       http.header (resp σ') !! CanonicalMIMEHeaderKey key = Some [value]) ∧
    (∀ key value,
       (key, value) ∈ named_headers o → has_value (key, value) = false →
       http.header (resp σ') !! CanonicalMIMEHeaderKey key
       = http.header (resp σ) !! CanonicalMIMEHeaderKey key) ∧
    (∀ t,
       s3.LastModified o = Some t → Time_DeepEqual t Time_zero = false →
       http.header (resp σ') !! CanonicalMIMEHeaderKey "Last-Modified"
       = Some [time_UTC_Format t http.TimeFormat]).
Proof.
  intros Hnd. destruct (writeResponse_parts o σ) as (w' & Heq & Hh & _ & _).
  eexists _, _. split; [exact Heq|]. cbn [resp]. rewrite Hh. clear Heq Hh w'.
  unfold written_keys in Hnd. rewrite !map_app in Hnd.
  apply NoDup_app in Hnd as (Hnamed & Hsep & Hrest).
  apply NoDup_app in Hrest as (Hthree & Hsep3 & Hmeta).
  cbn [map] in Hthree, Hsep3, Hsep.
  apply NoDup_cons in Hthree as (Hlm & Hthree).
  apply NoDup_cons in Hthree as (Hx & _).
  rewrite !not_elem_of_cons in Hlm. rewrite !not_elem_of_cons in Hx.
  destruct Hlm as (Hlx & Hlc & _). destruct Hx as (Hxc & _).
  rewrite !map_map in Hnamed, Hsep, Hsep3, Hmeta.
  (* a key of the three, or of a named field, through what is written after *)
  assert (Hafter : ∀ (w : http.ResponseWriter) k,
    k ∉ map (λ kv, CanonicalMIMEHeaderKey kv.1) (s3.Metadata o) →
    k ≠ CanonicalMIMEHeaderKey "X-Cache-S3" →
    k ≠ CanonicalMIMEHeaderKey "Content-Length" →
    match s3.Body o with
    | Some _ =>
        Header_Del CanonicalMIMEHeaderKey
          (Header_Set (http.header (setMetadataHeaders w (s3.Metadata o))) "X-Cache-S3" "hit")
          "Content-Length"
    | None => Header_Set (http.header (setMetadataHeaders w (s3.Metadata o))) "X-Cache-S3" "hit"
    end !! k = http.header w !! k).
  { intros w k Hm Hkx Hkc. destruct (s3.Body o); open_header.
    - rewrite lookup_delete_ne by done. rewrite lookup_insert_ne by done.
      by apply setMetadataHeaders_other.
    - rewrite lookup_insert_ne by done. by apply setMetadataHeaders_other. }
  assert (Hkey : ∀ key value, (key, value) ∈ named_headers o →
    CanonicalMIMEHeaderKey key ≠ CanonicalMIMEHeaderKey "Last-Modified" ∧
    CanonicalMIMEHeaderKey key ≠ CanonicalMIMEHeaderKey "X-Cache-S3" ∧
    CanonicalMIMEHeaderKey key ≠ CanonicalMIMEHeaderKey "Content-Length" ∧
    CanonicalMIMEHeaderKey key ∉ map (λ kv, CanonicalMIMEHeaderKey kv.1) (s3.Metadata o)).
  { intros key value Hin.
    assert (Hk : CanonicalMIMEHeaderKey key
                 ∈ map (λ kv, CanonicalMIMEHeaderKey kv.1) (named_headers o)).
    { apply list_elem_of_fmap. by exists (key, value). }
    specialize (Hsep _ Hk). apply not_elem_of_app in Hsep as [H3 Hm].
    rewrite !not_elem_of_cons in H3. destruct H3 as (? & ? & ? & _).
    rewrite ?map_map in Hm. by split_and!. }
  split_and!.
  - intros key value Hin Hv. destruct (Hkey _ _ Hin) as (Hl & Hkx & Hkc & Hm).
    rewrite Hafter by done. rewrite setTimeHeader_other by done.
    by apply setMetadataHeaders_lookup.
  - intros key value Hin Hv. destruct (Hkey _ _ Hin) as (Hl & Hkx & Hkc & Hm).
    rewrite Hafter by done. rewrite setTimeHeader_other by done.
    rewrite setMetadataHeaders_filter.
    apply setMetadataHeaders_other.
    intros Hk. apply list_elem_of_fmap in Hk as ([k' v'] & Hkk & Hin').
    apply list_elem_of_In, filter_In in Hin' as [Hin' Hv']. cbn [fst] in Hkk.
    apply list_elem_of_In in Hin'.
    assert ((key, value) = (k', v')); [|congruence].
    by eapply (NoDup_map_eq _ _ _ _ Hnamed).
  - intros t Ht Hz. rewrite Hafter; [|..|done|done].
    + rewrite Ht. by apply setTimeHeader_lookup.
    + intros Hin. apply (Hsep3 (CanonicalMIMEHeaderKey "Last-Modified")); [|done].
      by left.
Qed.



(** X13.  The storage request is made from the bucket, the key and the
    five validators alone: two requests that agree on what [Get] gives for
    these five headers give the same storage request, whatever their
    method, path, query and other headers are. *)
Theorem getObjectInput_only_validators (bucket key : gostring) (r r' : http.Request) :
  (∀ k, k ∈ validators →
        Header_Get (http.Header_ r) k = Header_Get (http.Header_ r') k) →
  getObjectInput bucket key r = getObjectInput bucket key r'.
Proof.
  intros H.
  assert (H1 := H "Range" ltac:(repeat constructor)).
  assert (H2 := H "If-Match" ltac:(repeat constructor)).
  assert (H3 := H "If-None-Match" ltac:(repeat constructor)).
  assert (H4 := H "If-Modified-Since" ltac:(repeat constructor)).
  assert (H5 := H "If-Unmodified-Since" ltac:(repeat constructor)).
  open_input. cbv zeta. by rewrite H1, H2, H3, H4, H5.
Qed.

End dispatch_facts.

(** * Provisioning *)

Ltac open_provision := unfold Provision.

Section provision_facts.

Context (CanonicalMIMEHeaderKey : gostring → gostring).
Context (time_Parse : gostring → gostring → Time * option error).
Context (time_UTC_Format : Time → gostring → gostring).
Context {Session : Type}.
Context (NewSession : aws.Config → Session * option error).
Context (s3_New : Session → s3.Client).

Local Abbreviation getObjectInput := (getObjectInput CanonicalMIMEHeaderKey time_Parse).
Local Abbreviation ServeHTTP := (ServeHTTP CanonicalMIMEHeaderKey time_Parse time_UTC_Format).
Local Abbreviation Provision := (Provision NewSession s3_New).

(** [Provision] in one piece: the root it leaves, the configuration it
    makes the session from, and what it does with the session. *)
Lemma Provision_eq (p : S3Proxy) :
  let root := if streq (Root p) "" then str "{http.vars.root}" else Root p in
  let config :=
    {| aws.Region := if streq (Region p) "" then None else Some (Region p);
       aws.Endpoint := if streq (Endpoint p) "" then None else Some (Endpoint p);
       aws.S3UseAccelerate := if S3UseAccelerate p then Some true else None |} in
  Provision p =
  ({| Root := root; Region := Region p; Bucket := Bucket p; Endpoint := Endpoint p;
      S3UseAccelerate := S3UseAccelerate p;
      client := match snd (NewSession config) with
                | Some _ => client p
                | None => s3_New (fst (NewSession config))
                end |},
   snd (NewSession config)).
Proof.
  cbv zeta. open_provision. destruct p as [root region bucket endpoint acc c].
  cbn [Root Region Bucket Endpoint S3UseAccelerate client].
  destruct (streq root ""); cbn [Root Region Bucket Endpoint S3UseAccelerate client];
    destruct (streq region ""), (streq endpoint ""), acc;
    cbn [negb Root Region Bucket Endpoint S3UseAccelerate client aws.Region aws.Endpoint
         aws.S3UseAccelerate];
    match goal with |- context [NewSession ?c] => by destruct (NewSession c) as [sess [e|]] eqn:E; cbn [fst snd] end.
Qed.

(** X14.  [Provision] never leaves the root empty: an empty root becomes
    [{http.vars.root}] and any other root stays, also when the session
    could not be made.  Region, bucket, endpoint and the acceleration flag
    are as they were. *)
Theorem Provision_root (p : S3Proxy) :
  let p' := fst (Provision p) in
  Root p' ≠ [] ∧
  Root p' = (if streq (Root p) "" then str "{http.vars.root}" else Root p) ∧
  Region p' = Region p ∧ Bucket p' = Bucket p ∧ Endpoint p' = Endpoint p ∧
  S3UseAccelerate p' = S3UseAccelerate p.
Proof.
  cbv zeta. rewrite Provision_eq. cbn [fst Root Region Bucket Endpoint S3UseAccelerate].
  split_and!; try done.
  destruct (streq (Root p) "") eqn:E; [done|]. by apply streq_false in E.
Qed.

(** X15.  The session is made from a configuration that has the region
    and the endpoint of the proxy when they are not empty, and the
    acceleration flag when it is set; every other field is left nil.
    [Provision] returns the error of the session; with an error the client
    stays as it was, and without one it is the client made from the
    session. *)
Theorem Provision_session (p : S3Proxy) :
  ∃ config,
    aws.Region config = (if streq (Region p) "" then None else Some (Region p)) ∧
    aws.Endpoint config = (if streq (Endpoint p) "" then None else Some (Endpoint p)) ∧
    aws.S3UseAccelerate config = (if S3UseAccelerate p then Some true else None) ∧
    snd (Provision p) = snd (NewSession config) ∧
    client (fst (Provision p)) =
      match snd (NewSession config) with
      | Some _ => client p
      | None => s3_New (fst (NewSession config))
      end.
Proof.
  rewrite Provision_eq.
  exists {| aws.Region := if streq (Region p) "" then None else Some (Region p);
            aws.Endpoint := if streq (Endpoint p) "" then None else Some (Endpoint p);
            aws.S3UseAccelerate := if S3UseAccelerate p then Some true else None |}.
  by split_and!.
Qed.

(** X16.  A proxy provisioned without a root, under a replacer that has
    no value for [{http.vars.root}], uses the whole path as the key: a GET
    request without a query whose path is clean, and not the root, asks the
    client made from the session for the path itself, in the bucket of the
    proxy. *)
Theorem Provision_whole_path (p p' : S3Proxy) (r : http.Request) (next : Handler) (σ : World)
    (repl : gostring → gostring → gostring) :
  Root p = [] →
  Provision p = (p', None) →
  http.Method r = http.MethodGet →
  http.Replacer r = Some repl →
  repl "{http.vars.root}" "" = [] →
  path.Clean (http.URL_Path r) = http.URL_Path r →
  http.URL_Path r ≠ str "/" →
  http.URL_RawQuery r = [] →
  let oi := getObjectInput (Bucket p) (http.URL_Path r) r in
  client p' = s3_New (fst (NewSession {| aws.Region := if streq (Region p) "" then None
                                                        else Some (Region p);
                                         aws.Endpoint := if streq (Endpoint p) "" then None
                                                         else Some (Endpoint p);
                                         aws.S3UseAccelerate :=
                                           if S3UseAccelerate p then Some true else None |})) ∧
  match ServeHTTP p' r next σ with
  | Returned (_, σ') =>
      trace σ' = trace σ ++ [CallGetObject oi] ∨
      trace σ' = trace σ ++ [CallGetObject oi; CallNext]
  | Panicked _ =>
      fst (client p' oi) = None ∨
      ∃ o, client p' oi = (Some o, None) ∧ s3.ContentLength o = None
  end.
Proof.
  intros Hroot Hp Hm Hr Hrepl Hc Hnr Hq oi.
  assert (Hfst : fst (Provision p) = p') by (by rewrite Hp).
  assert (Hsnd : snd (Provision p) = None) by (by rewrite Hp).
  rewrite Provision_eq in Hfst, Hsnd. cbn [fst snd] in Hfst, Hsnd.
  rewrite Hsnd, Hroot in Hfst. replace (streq [] "") with true in Hfst by done.
  subst p'. cbn [client Root Bucket]. split; [done|].
  assert (Hne : http.URL_Path r ≠ []) by (rewrite <- Hc; apply Clean_nonempty).
  assert (Hs : strings.HasSuffix (http.URL_Path r) "/" = false).
  { destruct (strings.HasSuffix (http.URL_Path r) "/") eqn:Es; [|done].
    rewrite <- Hc in Es. apply Clean_no_trailing_slash in Es. congruence. }
  assert (Hj : joinPath (repl "{http.vars.root}" "") (http.URL_Path r)
               = Returned (http.URL_Path r)).
  { rewrite Hrepl. rewrite joinPath_eq by done.
    rewrite Hs. cbn [andb]. by rewrite Join_empty_first, Hc. }
  assert (Hk : s3Key (http.URL_Path r) (http.URL_RawQuery r) = http.URL_Path r).
  { rewrite Hq. unfold s3Key. by rewrite Hs. }
  match goal with |- context [ServeHTTP ?q r next σ] =>
    pose proof (ServeHTTP_fetch_trace CanonicalMIMEHeaderKey time_Parse time_UTC_Format
                  q r next σ repl _ Hm Hr Hj) as H end.
  cbv zeta in H. rewrite Hk in H.
  exact H.
Qed.

End provision_facts.

(** * The root and the path *)

Section prefix_facts.

Import path.

Lemma ends_element_app p q : ends_element (p ++ slash :: q) = ends_element p.
Proof. by destruct p. Qed.

(** Reading a path up to one of its separators leaves the loop with the
    buffer it has at the end of the path before the separator. *)
Lemma clean_loop_through fuel rooted p q out dd :
  length (p ++ slash :: q) ≤ fuel → buffer_form rooted out dd →
  ∃ dd', buffer_form rooted (clean_loop fuel rooted p out dd) dd' ∧
    clean_loop fuel rooted (p ++ slash :: q) out dd =
    clean_loop (length q) rooted q (clean_loop fuel rooted p out dd) dd'.
Proof.
  revert p out dd. induction fuel as [|fuel IH]; intros p out dd Hlen Hf.
  { rewrite length_app in Hlen. cbn in Hlen. lia. }
  assert (Hstep : ∀ p' out' dd', length p' < length p → buffer_form rooted out' dd' →
    ∃ dd'', buffer_form rooted (clean_loop fuel rooted p' out' dd') dd'' ∧
      clean_loop fuel rooted (p' ++ slash :: q) out' dd' =
      clean_loop (length q) rooted q (clean_loop fuel rooted p' out' dd') dd'').
  { intros p' out' dd' Hp' Hf'. rewrite length_app in Hlen. cbn [length] in Hlen.
    apply IH; [rewrite length_app; cbn [length]; lia|done]. }
  destruct p as [|c p].
  - exists dd. rewrite clean_loop_nil. split; [done|]. cbn [app]. rewrite clean_loop_slash.
    rewrite length_app in Hlen. cbn in Hlen. apply clean_loop_fuel; lia.
  - cbn [app clean_loop]. rewrite ends_element_app.
    destruct (Ascii.eqb c slash) eqn:Ec; [apply Hstep; [cbn; lia|done]|].
    destruct (Ascii.eqb c dot && ends_element p) eqn:Edot; [apply Hstep; [cbn; lia|done]|].
    assert (Hdd :
      match p ++ slash :: q with
      | c' :: r2 => Ascii.eqb c' dot && ends_element r2
      | [] => false
      end =
      match p with
      | c' :: r2 => Ascii.eqb c' dot && ends_element r2
      | [] => false
      end).
    { destruct p as [|c' p]; [done|]. cbn [app]. by rewrite ends_element_app. }
    rewrite Hdd.
    destruct (Ascii.eqb c dot && match p with
                                 | c' :: r2 => Ascii.eqb c' dot && ends_element r2
                                 | [] => false
                                 end) eqn:Edd.
    + assert (Ht : tail (p ++ slash :: q) = tail p ++ slash :: q ∧ length (tail p) < length (c :: p)).
      { destruct p as [|c' p]; [by rewrite andb_false_r in Edd|]. cbn. split; [done|lia]. }
      destruct Ht as [-> Ht].
      destruct (dd <? length out) eqn:E.
      * apply Hstep; [done|]. apply backtrack_form; [done|]. by apply Nat.ltb_lt.
      * destruct rooted; cbn [negb]; [by apply Hstep|].
        apply Hstep; [done|]. rewrite with_separator_unrooted.
        apply (bf_dotdot _ _ dd); [done|done|].
        apply Nat.ltb_ge in E. pose proof (buffer_form_le _ _ _ Hf). lia.
    + destruct (first_element (c :: p)) as (e & q0 & Heq & He & Hq0 & Hc).
      rewrite Hc.
      assert (Hreal : real_element e) by (by apply (default_real c p e q0)).
      change (c :: p ++ slash :: q) with ((c :: p) ++ slash :: q).
      rewrite Heq, <- app_assoc.
      rewrite copy_element_noslash; [|done|by rewrite ends_element_app].
      fold (with_separator rooted out).
      apply Hstep; [|by apply bf_real].
      rewrite Heq, length_app. destruct Hreal as [Hne _]. destruct e; [done|cbn; lia].
Qed.

Lemma buffer_form_empty out dd : buffer_form false out dd → out = [] → dd = 0.
Proof.
  intros Hf. destruct Hf as [|out dd Hr Hf Hlen|out dd e Hf He]; [done|done|].
  intros E. apply app_eq_nil in E as [E _]. destruct He as [Hne _].
  apply (f_equal (@rev ascii)) in E. by rewrite rev_involutive in E.
Qed.

(** What is in front of a separator may be cleaned first. *)
Lemma Clean_prefix p q : p ≠ [] → Clean (p ++ slash :: q) = Clean (Clean p ++ slash :: q).
Proof.
  destruct p as [|c p]; [done|]. intros _.
  set (rooted := Ascii.eqb c slash).
  set (init := if rooted then [slash] else []).
  set (dd0 := if rooted then 1 else 0).
  set (rest := if rooted then p else c :: p).
  set (fuel := length ((c :: p) ++ slash :: q)).
  assert (Hinit : buffer_form rooted init dd0) by apply bf_init.
  assert (Hp : Clean (c :: p) = out_string (clean_loop fuel rooted rest init dd0)).
  { subst rooted init dd0 rest fuel. cbn [Clean]. destruct (Ascii.eqb c slash); f_equal;
      apply clean_loop_fuel; rewrite ?length_app; cbn [length]; lia. }
  assert (Hpq : Clean ((c :: p) ++ slash :: q)
                = out_string (clean_loop fuel rooted (rest ++ slash :: q) init dd0)).
  { subst rooted init dd0 rest fuel. cbn [app Clean]. by destruct (Ascii.eqb c slash). }
  destruct (clean_loop_through fuel rooted rest q init dd0) as (dd' & Hf & Heq); [|done|].
  { subst rest fuel. destruct rooted; rewrite !length_app; cbn [length]; lia. }
  rewrite Hpq, Heq, Hp. set (out := clean_loop fuel rooted rest init dd0) in *.
  assert (Hq : clean_loop (length q) rooted q out dd'
               = clean_loop (length (slash :: q)) rooted (slash :: q) out dd').
  { cbn [length]. by rewrite clean_loop_slash. }
  rewrite Hq. pose proof (clean_loop_reread _ _ _ Hf (slash :: q)) as Hread.
  destruct rooted eqn:Hr.
  - destruct (buffer_form_rev_rooted _ _ Hf) as [t Ht].
    assert (Hout : out_string out = slash :: t) by (unfold out_string; by destruct out).
    rewrite Hout. rewrite Ht in Hread. cbn [unroot tail] in Hread.
    cbn [app Clean]. rewrite Ascii.eqb_refl. f_equal. symmetry.
    change (length (slash :: t ++ slash :: q)) with (S (length (t ++ slash :: q))).
    apply Hread; [by left|lia].
  - destruct out as [|c' out'] eqn:Eo.
    + assert (dd' = 0) as -> by (by apply (buffer_form_empty [])).
      cbn [out_string]. change (str "." ++ slash :: q) with (dot :: slash :: q).
      cbn [Clean]. replace (Ascii.eqb dot slash) with false by done.
      cbn [length clean_loop]. replace (Ascii.eqb dot slash) with false by done.
      replace (Ascii.eqb dot dot) with true by done. cbn [ends_element andb].
      by rewrite Ascii.eqb_refl.
    + pose proof (buffer_form_unrooted_head _ _ Hf ltac:(done)) as Hh.
      cbn [out_string]. cbn [unroot] in Hread.
      destruct (rev (c' :: out')) as [|c1 t] eqn:Ht.
      { apply (f_equal (@rev ascii)) in Ht. by rewrite rev_involutive in Ht. }
      cbn [is_rooted] in Hh. cbn [app Clean]. rewrite Hh. f_equal. symmetry.
      apply Hread; [by left|done].
Qed.

(** A separator at the end is cleaned away. *)
Lemma Clean_slash_end p : p ≠ [] → Clean (p ++ [slash]) = Clean p.
Proof. intros Hp. rewrite Clean_prefix by done. by apply Clean_trailing_slash. Qed.

(** A second separator in front changes nothing. *)
Lemma Clean_double_slash r : Clean (slash :: slash :: r) = Clean (slash :: r).
Proof.
  cbn [Clean]. by rewrite Ascii.eqb_refl.
Qed.

End prefix_facts.

Section root_facts.

Lemma Join_clean_root root u :
  root ≠ [] → u ≠ [] → path.Join [root; u] = path.Join [path.Clean root; u].
Proof.
  intros Hr Hu. rewrite !Join_two by (done || apply Clean_nonempty).
  by apply Clean_prefix.
Qed.

(** X17.  The root counts only in its cleaned form: [joinPath] gives for
    a root that is not empty what it gives for the root cleaned. *)
Theorem joinPath_clean_root (root uriPath : gostring) :
  root ≠ [] → joinPath root uriPath = joinPath (path.Clean root) uriPath.
Proof.
  intros Hr. destruct uriPath as [|c u]; [done|].
  rewrite !joinPath_eq by done. by rewrite Join_clean_root.
Qed.

(** X17, at the root [/a/../site/]. *)
Lemma joinPath_clean_root_witness :
  str "/a/../site/" ≠ [] ∧
  joinPath "/a/../site/" "/page" = joinPath "/site" "/page".
Proof.
  assert (Hr : str "/a/../site/" ≠ []) by discriminate.
  split; [exact Hr|]. exact (joinPath_clean_root "/a/../site/" "/page" Hr).
Defined.

Lemma rooted_path_snoc es e : rooted_path (es ++ [e]) = rooted_path es ++ slash :: e.
Proof. unfold rooted_path. rewrite map_app, concat_app. cbn. by rewrite app_nil_r. Qed.

Lemma rooted_path_length es :
  es ≠ [] → Forall real_element es → 2 ≤ length (rooted_path es).
Proof.
  destruct es as [|e es]; [done|]. intros _ [[He _] _]%Forall_cons.
  unfold rooted_path. cbn. rewrite length_app. destruct e; [done|cbn; lia].
Qed.

Lemma long_not_short (x : gostring) : 2 ≤ length x → x ≠ str "." ∧ x ≠ str "/".
Proof. intros Hl. split; intros ->; cbn in Hl; lia. Qed.

(** Real elements under a path: they follow its cleaned form, or come
    alone when that is the root. *)
Lemma Clean_under x es :
  x ≠ [] → path.Clean x ≠ str "." → es ≠ [] → Forall real_element es →
  path.Clean (x ++ rooted_path es) =
  (if streq (path.Clean x) "/" then [] else path.Clean x) ++ rooted_path es.
Proof.
  intros Hx Hdot. induction es as [|e es IH] using rev_ind; [done|].
  intros _ [Hes He%Forall_inv]%Forall_app.
  rewrite rooted_path_snoc, app_assoc.
  rewrite Clean_prefix by (by destruct x).
  destruct es as [|e1 es1].
  - change (rooted_path []) with (@nil ascii). rewrite app_nil_r.
    pose proof (Clean_then_element x 0 e Hx He) as H. cbn [repeat app] in H.
    rewrite H. apply streq_false in Hdot. rewrite Hdot.
    by destruct (streq (path.Clean x) "/").
  - specialize (IH ltac:(done) Hes).
    pose proof (rooted_path_length (e1 :: es1) ltac:(done) Hes) as Hlen.
    assert (Hy : 2 ≤ length (path.Clean (x ++ rooted_path (e1 :: es1)))).
    { rewrite IH, length_app. lia. }
    apply long_not_short in Hy as [Hy1 Hy2].
    pose proof (Clean_then_element (x ++ rooted_path (e1 :: es1)) 0 e
                  ltac:(by destruct x) He) as H.
    cbn [repeat app] in H. rewrite H.
    apply streq_false in Hy1, Hy2. rewrite Hy1, Hy2. rewrite IH. by rewrite <- app_assoc.
Qed.

(** X18.  For a path of real elements, with or without a separator at
    its end, the key is the cleaned root and the path, and the default
    document behind them when the path ends with a separator; the root
    [/] and the empty root add nothing in front. *)
Theorem s3Key_plain_path (root : gostring) (es : list gostring) (dir : bool) :
  root = [] ∨ path.Clean root ≠ str "." →
  es ≠ [] → Forall real_element es →
  let under :=
    (if streq root "" || streq (path.Clean root) "/" then [] else path.Clean root)
    ++ rooted_path es in
  joinPath root (rooted_path es ++ (if dir then str "/" else []))
    = Returned (under ++ (if dir then str "/" else [])) ∧
  s3Key (under ++ (if dir then str "/" else [])) ""
    = under ++ (if dir then str "/index.html" else []).
Proof.
  intros Hroot Hes Hreal under.
  pose proof (rooted_path_length es Hes Hreal) as Hlen.
  assert (Hrp : path.Clean (rooted_path es) = rooted_path es).
  { destruct (rooted_path es) as [|c rp] eqn:E; [cbn in Hlen; lia|].
    assert (c = slash) as -> by (destruct es; [done|]; by injection E).
    rewrite <- Clean_double_slash.
    change (slash :: slash :: rp) with (str "/" ++ slash :: rp). rewrite <- E.
    by rewrite (Clean_under "/" es). }
  set (u := rooted_path es ++ (if dir then str "/" else [])).
  assert (Hu : u ≠ []).
  { subst u. destruct (rooted_path es); [cbn in Hlen; lia|done]. }
  assert (Hj : ∃ y, y ≠ [] ∧ path.Join [root; u] = path.Clean y ∧ path.Clean y = under).
  { destruct root as [|c root].
    - exists (rooted_path es). split; [by destruct (rooted_path es)|].
      rewrite Join_empty_first by done. subst u under. cbn [orb app].
      change (streq [] "") with true. cbn [orb app]. split; [|done].
      destruct dir; [|by rewrite app_nil_r].
      apply Clean_slash_end. intros E. rewrite E in Hlen. cbn in Hlen. lia.
    - destruct Hroot as [?|Hdot]; [done|].
      exists (((c :: root) ++ [slash]) ++ rooted_path es).
      split; [done|]. rewrite Join_two by done.
      assert (Hx : path.Clean ((c :: root) ++ [slash]) = path.Clean (c :: root))
        by (by apply Clean_slash_end).
      assert (Hy : path.Clean (((c :: root) ++ [slash]) ++ rooted_path es) = under).
      { rewrite Clean_under; [|done|by rewrite Hx|done|done]. rewrite Hx. subst under.
        replace (streq (c :: root) "") with false by done. done. }
      split; [|done]. subst u. destruct dir.
      + change (str "/") with [slash].
        replace ((c :: root) ++ slash :: rooted_path es ++ [slash])
          with ((((c :: root) ++ [slash]) ++ rooted_path es) ++ [slash])
          by (by rewrite <- !app_assoc).
        by apply Clean_slash_end.
      + rewrite app_nil_r. f_equal. by rewrite <- app_assoc. }
  destruct Hj as (y & Hy & HJ & Hunder).
  assert (Hlong : 2 ≤ length under).
  { subst under. rewrite length_app. lia. }
  apply long_not_short in Hlong as [Hdot Hnr].
  assert (Hs : strings.HasSuffix under "/" = false).
  { destruct (strings.HasSuffix under "/") eqn:Es; [|done].
    rewrite <- Hunder in Es. apply Clean_no_trailing_slash in Es. congruence. }
  assert (Hsu : strings.HasSuffix u "/" = dir).
  { subst u. destruct dir.
    - apply HasSuffix_spec. by exists (rooted_path es).
    - rewrite app_nil_r. destruct (strings.HasSuffix (rooted_path es) "/") eqn:Es; [|done].
      rewrite <- Hrp in Es. apply Clean_no_trailing_slash in Es.
      rewrite Hrp in Es. rewrite Es in Hlen. cbn in Hlen. lia. }
  split.
  - rewrite joinPath_eq by done. rewrite Hsu, HJ, Hunder.
    apply streq_false in Hnr. rewrite Hnr. destruct dir; cbn [andb negb]; [done|].
    by rewrite app_nil_r.
  - destruct dir.
    + rewrite s3Key_dir; [| |by destruct under].
      * rewrite <- Hunder.
        pose proof (Clean_then_element y 1 defaultIndex Hy defaultIndex_real) as H.
        rewrite Hunder in *. apply streq_false in Hdot, Hnr. rewrite Hdot, Hnr in H.
        etrans; [|exact H]. f_equal. cbn [repeat]. by rewrite <- !app_assoc.
      * apply HasSuffix_spec. by exists under.
    + rewrite !app_nil_r. unfold s3Key. by rewrite Hs.
Qed.

(** X18, at the root [/site/] and the path [/images/icons/]. *)
Lemma s3Key_plain_path_witness :
  (str "/site/" = [] ∨ path.Clean "/site/" ≠ str ".") ∧
  [str "images"; str "icons"] ≠ [] ∧
  Forall real_element [str "images"; str "icons"] ∧
  joinPath "/site/" "/images/icons/" = Returned (str "/site/images/icons/") ∧
  s3Key "/site/images/icons/" "" = str "/site/images/icons/index.html".
Proof.
  assert (Hroot : str "/site/" = [] ∨ path.Clean "/site/" ≠ str ".")
    by (right; discriminate).
  assert (Hes : [str "images"; str "icons"] ≠ []) by discriminate.
  assert (Hreal : Forall real_element [str "images"; str "icons"]).
  { repeat constructor; try discriminate; apply (bool_decide_unpack _); by vm_compute. }
  split; [exact Hroot|]. split; [exact Hes|]. split; [exact Hreal|].
  exact (s3Key_plain_path "/site/" [str "images"; str "icons"] true Hroot Hes Hreal).
Defined.

End root_facts.

(** ** The theorems at a request *)

(** X6, at a GET request for [/page] under the root [/site], and the
    page. *)
Lemma ServeHTTP_one_fetch_witness :
  match
    sample.ServeHTTP (sample.proxy "/site" (sample.found sample.page))
      (sample.get "/page" "" ∅) sample.notFound sample.world0
  with
  | Returned (_, σ') =>
      trace σ' = [] ++ [CallGetObject (sample.input "/site/page")] ∨
      trace σ' = [] ++ [CallGetObject (sample.input "/site/page"); CallNext]
  | Panicked _ =>
      fst (sample.found sample.page (sample.input "/site/page")) = None ∨
      ∃ o, sample.found sample.page (sample.input "/site/page") = (Some o, None) ∧
           s3.ContentLength o = None
  end.
Proof.
  exact (ServeHTTP_one_fetch textproto.CanonicalMIMEHeaderKey sample.time_Parse
           sample.time_UTC_Format (sample.proxy "/site" (sample.found sample.page))
           (sample.get "/page" "" ∅) sample.notFound sample.world0 sample.noRoot
           "/site/page" eq_refl eq_refl eq_refl).
Defined.

(** X7, at the same request and a client that refuses it. *)
Lemma ServeHTTP_storage_error_witness :
  (∀ message, awserr_Error "AccessDenied" "Access Denied"
              ≠ awserr_Error "NotModified" message) ∧
  sample.ServeHTTP (sample.proxy "/site" sample.accessDenied) (sample.get "/page" "" ∅)
    sample.notFound sample.world0 =
  Returned (None, {| resp := http.WriteHeader sample.w0 404;
                     trace := [CallGetObject (sample.input "/site/page"); CallNext] |}).
Proof.
  assert (Hne : ∀ message, awserr_Error "AccessDenied" "Access Denied"
                           ≠ awserr_Error "NotModified" message) by discriminate.
  split; [exact Hne|].
  exact (ServeHTTP_storage_error textproto.CanonicalMIMEHeaderKey sample.time_Parse
           sample.time_UTC_Format (sample.proxy "/site" sample.accessDenied)
           (sample.get "/page" "" ∅) sample.notFound sample.world0 sample.noRoot
           "/site/page" (Some s3.empty_output) (awserr_Error "AccessDenied" "Access Denied")
           eq_refl eq_refl eq_refl eq_refl Hne).
Defined.


(** X9, at the page and the key [Date]. *)
Lemma writeResponse_frame_witness :
  (str "Date" ∉ map textproto.CanonicalMIMEHeaderKey (written_keys sample.page)) ∧
  ∃ err σ',
    sample.writeResponseFromGetObject (Some sample.page) sample.world0 = Returned (err, σ') ∧
    http.header (resp σ') !! str "Date" = None.
Proof.
  assert (Hk : str "Date"
               ∉ map textproto.CanonicalMIMEHeaderKey (written_keys sample.page)).
  { apply (bool_decide_unpack _). by vm_compute. }
  split; [exact Hk|].
  exact (writeResponse_frame textproto.CanonicalMIMEHeaderKey sample.time_UTC_Format
           sample.page sample.world0 "Date" Hk).
Defined.

(** X10, at the page: its content type. *)
Lemma writeResponse_named_headers_witness :
  NoDup (map textproto.CanonicalMIMEHeaderKey (written_keys sample.page)) ∧
  ∃ err σ',
    sample.writeResponseFromGetObject (Some sample.page) sample.world0 = Returned (err, σ') ∧
    http.header (resp σ') !! str "Content-Type" = Some [str "text/html"].
Proof.
  assert (Hnd : NoDup (map textproto.CanonicalMIMEHeaderKey (written_keys sample.page))).
  { apply (bool_decide_unpack _). by vm_compute. }
  split; [exact Hnd|].
  destruct (writeResponse_named_headers textproto.CanonicalMIMEHeaderKey
              sample.time_UTC_Format sample.page sample.world0 Hnd)
    as (err & σ' & Heq & Hset & _).
  exists err, σ'. split; [exact Heq|].
  apply (Hset "Content-Type" "text/html").
  - unfold named_headers. repeat constructor.
  - discriminate.
Defined.



(** X13, at a GET and a POST request that differ in all but the entity
    tag. *)
Lemma getObjectInput_only_validators_witness :
  getObjectInput textproto.CanonicalMIMEHeaderKey sample.time_Parse "bucket" "/site/page"
    (sample.get "/page" "" (sample.Header_Set ∅ "If-None-Match" "abc")) =
  getObjectInput textproto.CanonicalMIMEHeaderKey sample.time_Parse "bucket" "/site/page"
    (sample.post "/other" "a=1"
       (sample.Header_Set (sample.Header_Set ∅ "If-None-Match" "abc") "Accept" "text/html")).
Proof.
  apply (getObjectInput_only_validators textproto.CanonicalMIMEHeaderKey sample.time_Parse).
  intros k Hk. unfold validators in Hk.
  repeat (apply elem_of_cons in Hk as [->|Hk]; [by vm_compute|]).
  by apply elem_of_nil in Hk.
Defined.

(** X16, at a proxy without a root and a GET request for
    [/images/logo.png]. *)
Lemma Provision_whole_path_witness :
  Provision sdk.NewSession sdk.s3_New (sample.proxy "" sample.noSuchKey)
    = (sample.proxy "{http.vars.root}" (sample.found sample.page), None) ∧
  match
    sample.ServeHTTP (sample.proxy "{http.vars.root}" (sample.found sample.page))
      (sample.get "/images/logo.png" "" ∅) sample.notFound sample.world0
  with
  | Returned (_, σ') =>
      trace σ' = [] ++ [CallGetObject (sample.input "/images/logo.png")] ∨
      trace σ' = [] ++ [CallGetObject (sample.input "/images/logo.png"); CallNext]
  | Panicked _ =>
      fst (sample.found sample.page (sample.input "/images/logo.png")) = None ∨
      ∃ o, sample.found sample.page (sample.input "/images/logo.png") = (Some o, None) ∧
           s3.ContentLength o = None
  end.
Proof.
  assert (Hp : Provision sdk.NewSession sdk.s3_New (sample.proxy "" sample.noSuchKey)
               = (sample.proxy "{http.vars.root}" (sample.found sample.page), None))
    by reflexivity.
  assert (Hnr : str "/images/logo.png" ≠ str "/") by discriminate.
  split; [exact Hp|].
  exact (proj2 (Provision_whole_path textproto.CanonicalMIMEHeaderKey sample.time_Parse
                  sample.time_UTC_Format sdk.NewSession sdk.s3_New
                  (sample.proxy "" sample.noSuchKey)
                  (sample.proxy "{http.vars.root}" (sample.found sample.page))
                  (sample.get "/images/logo.png" "" ∅) sample.notFound sample.world0
                  sample.noRoot eq_refl Hp eq_refl eq_refl eq_refl eq_refl Hnr eq_refl)).
Defined.
